(** * MemoryPoolAllocator: buckets with a bitmap ledger and a waste-minimising dispatcher

    Shallow embedding of [lib/MemoryPoolAllocator.h].

    - [size_t] values are integers in [Z]; the places where unsigned 64-bit
      arithmetic can wrap are written with [wrap].
    - [uint8_t] values are integers in [Z]; conversions to [uint8_t] are
      written with [u8].
    - The ledger buffer is a [list Z], read with [!!] and written with
      [<[_:=_]>]; an access past the end of the buffer is undefined behaviour
      in the source and makes the embedded operation return [None].
    - Pointers are integers; [void*] results use [option Z] with [None] for
      [nullptr]. The arena bytes themselves are never inspected by the
      allocator and are not modelled.
    - The constructor requires a positive block size and block count; the
      source divides by [BlockSize] without a check.
    - [std::sort] is taken by its contract and is a parameter of the
      dispatcher's [allocate]. *)

From stdpp Require Import base numbers option list sorting.

Local Open Scope Z_scope.

(** [size_t] arithmetic is modulo [2^64]. *)
Definition wrap (z : Z) : Z := z mod 2 ^ 64.

(** Conversion of an [int] expression to [uint8_t]. *)
Definition u8 (z : Z) : Z := z mod 256.

(** [const auto n = 1 + ((bytes - 1) / BlockSize);] *)
Definition blocks_needed (block_size bytes : Z) : Z :=
  wrap (1 + wrap (bytes - 1) / block_size).

Module bucket.

Record t := mk {
  BlockSize : Z;
  BlockCount : Z;
  data_ : Z;
  ledger_ : list Z
}.

Definition with_ledger (b : t) (ledger : list Z) : t :=
  {| BlockSize := BlockSize b; BlockCount := BlockCount b;
     data_ := data_ b; ledger_ := ledger |}.

(** [const auto ledger_size = 1 + ((BlockCount - 1) / 8);] *)
Definition ledger_size (block_count : Z) : Z :=
  wrap (1 + wrap (block_count - 1) / 8).

(** The constructor; [base] is the address [malloc] returned for the arena.
    Both buffers are zeroed by [memset]. *)
Definition make (block_size block_count base : Z) : t :=
  {| BlockSize := block_size; BlockCount := block_count; data_ := base;
     ledger_ := replicate (Z.to_nat (ledger_size block_count)) 0 |}.

Definition belongs (b : t) (ptr : Z) : bool :=
  (data_ b <=? ptr) && (ptr <? data_ b + wrap (BlockSize b * BlockCount b)).

(** ** find_contiguous_blocks *)

Record scan := mk_scan { count : Z; shift : Z; begin_index : Z }.

(** The inner loop [for (int j = 7; j >= 0; --j)] on the byte [cur] at
    ledger position [i]; [j1] is [j + 1]. The boolean is [found]. *)
Fixpoint scan_byte (n cur i : Z) (j1 : nat) (s : scan) : scan * bool :=
  match j1 with
  | O => (s, false)
  | S j' =>
      let j := Z.of_nat j' in
      if Z.land cur (Z.shiftl 1 j) =? 0 then
        let count' := wrap (count s + 1) in
        let s' := {| count := count'; shift := shift s;
                     begin_index := begin_index s |} in
        if count' =? n then (s', true) else scan_byte n cur i j' s'
      else
        scan_byte n cur i j'
          {| count := 0; shift := (8 - j) mod 8; begin_index := i |}
  end.

(** The outer loop over the ledger bytes from position [i] on; [None] when
    the loop runs to its end without [found]. The counter [i] is an [int]
    in the source: the embedding follows it for ledgers of fewer than
    [2^31] bytes, which well-formedness ([wf]) requires. *)
Fixpoint scan_ledger (n : Z) (bytes : list Z) (i : Z) (s : scan) : option Z :=
  match bytes with
  | [] => None
  | cur :: rest =>
      let '(s', found) := scan_byte n cur i 8 s in
      if found then Some (8 * begin_index s' + shift s')
      else scan_ledger n rest (i + 1) s'
  end.

(** Returns [BlockCount] when there are no such blocks. The ledger buffer
    holds exactly [ledger_size] bytes, so the loop bound is its length. *)
Definition find_contiguous_blocks (b : t) (n : Z) : Z :=
  match scan_ledger n (ledger_ b) 0
          {| count := 0; shift := 0; begin_index := 0 |} with
  | Some index => index
  | None => BlockCount b
  end.

(** ** set_used and set_free *)

(** The [while (bits_remaining > 0)] loop of [set_used]. Every iteration
    moves to the next ledger byte, so after [length ledger] iterations the
    loop has left the buffer: the fuel never cuts a defined execution
    short. *)
Fixpoint set_used_loop (fuel : nat) (byte_index bits_remaining : Z)
    (ledger : list Z) : option (list Z) :=
  if bits_remaining >? 0 then
    match fuel with
    | O => None
    | S fuel' =>
        let byte_index := byte_index + 1 in
        let mask := 255 in
        let bits_to_set := Z.min bits_remaining 8 in
        let mask :=
          if bits_to_set <? 8
          then u8 (mask - (Z.shiftl 1 (8 - bits_to_set) - 1)) else mask in
        cur ← ledger !! Z.to_nat byte_index;
        let ledger := <[Z.to_nat byte_index := Z.lor cur mask]> ledger in
        set_used_loop fuel' byte_index (bits_remaining - bits_to_set) ledger
    end
  else Some ledger.

Definition set_used (index n : Z) (ledger : list Z) : option (list Z) :=
  let byte_index := index / 8 in
  let bit_index := index mod 8 in
  let bits_remaining := n in
  let mask := u8 (Z.shiftl 1 (8 - bit_index) - 1) in
  let mask :=
    if bits_remaining <? 8 - bit_index
    then u8 (mask - (Z.shiftl 1 (8 - bit_index - bits_remaining) - 1))
    else mask in
  cur ← ledger !! Z.to_nat byte_index;
  let ledger := <[Z.to_nat byte_index := Z.lor cur mask]> ledger in
  let bits_remaining := bits_remaining - Z.min n (8 - bit_index) in
  set_used_loop (length ledger) byte_index bits_remaining ledger.

Fixpoint set_free_loop (fuel : nat) (byte_index bits_remaining : Z)
    (ledger : list Z) : option (list Z) :=
  if bits_remaining >? 0 then
    match fuel with
    | O => None
    | S fuel' =>
        let byte_index := byte_index + 1 in
        let mask := 255 in
        let bits_to_set := Z.min bits_remaining 8 in
        let mask :=
          if bits_to_set <? 8
          then u8 (mask - (Z.shiftl 1 (8 - bits_to_set) - 1)) else mask in
        let mask := u8 (Z.lnot mask) in
        cur ← ledger !! Z.to_nat byte_index;
        let ledger := <[Z.to_nat byte_index := Z.land cur mask]> ledger in
        set_free_loop fuel' byte_index (bits_remaining - bits_to_set) ledger
    end
  else Some ledger.

Definition set_free (index n : Z) (ledger : list Z) : option (list Z) :=
  let byte_index := index / 8 in
  let bit_index := index mod 8 in
  let bits_remaining := n in
  let mask := u8 (Z.shiftl 1 (8 - bit_index) - 1) in
  let mask :=
    if bits_remaining <? 8 - bit_index
    then u8 (mask - (Z.shiftl 1 (8 - bit_index - bits_remaining) - 1))
    else mask in
  let mask := u8 (Z.lnot mask) in
  cur ← ledger !! Z.to_nat byte_index;
  let ledger := <[Z.to_nat byte_index := Z.land cur mask]> ledger in
  let bits_remaining := bits_remaining - Z.min n (8 - bit_index) in
  set_free_loop (length ledger) byte_index bits_remaining ledger.

(** ** allocate and deallocate *)

Definition allocate (b : t) (bytes : Z) : option (option Z * t) :=
  let n := blocks_needed (BlockSize b) bytes in
  let index := find_contiguous_blocks b n in
  if index =? BlockCount b then Some (None, b)
  else
    ledger ← set_used index n (ledger_ b);
    Some (Some (data_ b + wrap (index * BlockSize b)), with_ledger b ledger).

Definition deallocate (b : t) (ptr bytes : Z) : option t :=
  let distance := wrap (ptr - data_ b) in
  let index := distance / BlockSize b in
  let n := blocks_needed (BlockSize b) bytes in
  ledger ← set_free index n (ledger_ b);
  Some (with_ledger b ledger).

End bucket.

(** ** The dispatcher *)

(** [struct info]; [index] only ever holds a position in the pool array and
    is a [nat], the other two fields are [size_t] values. *)
Record info := mk_info { index : nat; block_count : Z; waste : Z }.

(** [info::operator<] *)
Definition info_lt (a other : info) : bool :=
  if waste a =? waste other then block_count a <? block_count other
  else waste a <? waste other.

(** What the catch-free caller of [MemoryPoolAllocator::allocate] observes:
    a returned pointer or the exception [std::bad_alloc]. *)
Inductive outcome := Returned (ptr : Z) | bad_alloc.

Module MemoryPoolAllocator.

(** The body of the first loop of [allocate] for the bucket at [index]. *)
Definition score (bytes : Z) (index : nat) (b : bucket.t) : info :=
  if bucket.BlockSize b >=? bytes then
    {| index := index; block_count := 1;
       waste := wrap (bucket.BlockSize b - bytes) |}
  else
    let n := blocks_needed (bucket.BlockSize b) bytes in
    let mem_required := wrap (n * bucket.BlockSize b) in
    {| index := index; block_count := n;
       waste := wrap (mem_required - bytes) |}.

(** The first loop: [options[index]] is filled for every bucket in turn. *)
Fixpoint options (bytes : Z) (index : nat) (pool : list bucket.t)
    : list info :=
  match pool with
  | [] => []
  | b :: rest => score bytes index b :: options bytes (S index) rest
  end.

(** The second loop: the buckets are tried in the order of [opts]; the
    pool is the array the allocator holds by reference. *)
Fixpoint try_options (bytes : Z) (opts : list info) (pool : list bucket.t)
    : option (outcome * list bucket.t) :=
  match opts with
  | [] => Some (bad_alloc, pool)
  | opt :: rest =>
      b ← pool !! index opt;
      r ← bucket.allocate b bytes;
      let pool := <[index opt := r.2]> pool in
      match r.1 with
      | Some ptr => Some (Returned ptr, pool)
      | None => try_options bytes rest pool
      end
  end.

(** [std::sort] is a parameter: the standard fixes its result only up to
    the order of equivalent elements. *)
Definition allocate (sort : list info → list info) (pool : list bucket.t)
    (bytes : Z) : option (outcome * list bucket.t) :=
  try_options bytes (sort (options bytes 0 pool)) pool.

Fixpoint deallocate (pool : list bucket.t) (ptr n : Z)
    : option (list bucket.t) :=
  match pool with
  | [] => Some []
  | b :: rest =>
      if bucket.belongs b ptr then
        b' ← bucket.deallocate b ptr n; Some (b' :: rest)
      else
        rest' ← deallocate rest ptr n; Some (b :: rest')
  end.

End MemoryPoolAllocator.

(** The contract of [std::sort] with [operator<]: the result is a
    permutation of the input in which no element is less than an earlier
    one. *)
Definition std_sort_spec (sort : list info → list info) : Prop :=
  ∀ l, sort l ≡ₚ l ∧ StronglySorted (λ a b, info_lt b a = false) (sort l).

(** One sorting function that meets the contract: insertion sort. *)
Fixpoint insert_info (x : info) (l : list info) : list info :=
  match l with
  | [] => [x]
  | y :: l' => if info_lt y x then y :: insert_info x l' else x :: l
  end.

Definition insertion_sort (l : list info) : list info :=
  foldr insert_info [] l.

(** ** Views used by the statements *)

(** Block [k] is marked used: byte [k / 8], bit [7 - k mod 8] from the least
    significant bit. *)
Definition used (ledger : list Z) (k : Z) : bool :=
  match ledger !! Z.to_nat (k / 8) with
  | Some cur => Z.testbit cur (7 - k mod 8)
  | None => false
  end.

(** [ceil(bytes / block_size)] as the specification writes it. *)
Definition ceil_div (bytes block_size : Z) : Z :=
  (bytes + block_size - 1) / block_size.

(** The score of a bucket as the specification states it, without
    machine arithmetic. *)
Definition spec_score (bytes : Z) (i : nat) (block_size : Z) : info :=
  if decide (bytes ≤ block_size) then
    {| index := i; block_count := 1; waste := block_size - bytes |}
  else
    {| index := i; block_count := ceil_div bytes block_size;
       waste := ceil_div bytes block_size * block_size - bytes |}.

(** "Ascending waste, ties broken by ascending blocks needed". *)
Definition score_le (a b : info) : Prop :=
  waste a < waste b ∨ (waste a = waste b ∧ block_count a ≤ block_count b).

(** Well-formed buckets: what the constructor establishes and every
    operation keeps. The bound on the ledger size is the range of the
    [int] counter with which [find_contiguous_blocks] walks the ledger. *)
Definition wf (b : bucket.t) : Prop :=
  0 < bucket.BlockSize b < 2 ^ 64
  ∧ 0 < bucket.BlockCount b < 2 ^ 64
  ∧ bucket.ledger_size (bucket.BlockCount b) < 2 ^ 31
  ∧ Z.of_nat (length (bucket.ledger_ b))
    = bucket.ledger_size (bucket.BlockCount b).

(** The blocks [index, index + n) are all free, as a test. *)
Definition run_free (ledger : list Z) (index n : Z) : bool :=
  forallb (λ k, negb (used ledger k)) (seqZ index n).

(** First fit as the specification states it: the smallest [index] such
    that the blocks [index, index + n) are all free and lie within
    [0, block_count); [None] when there is no such run. *)
Fixpoint first_fit_from (ledger : list Z) (n : Z) (candidates : nat)
    (index : Z) : option Z :=
  match candidates with
  | O => None
  | S candidates' =>
      if run_free ledger index n then Some index
      else first_fit_from ledger n candidates' (index + 1)
  end.

Definition first_fit (block_count : Z) (ledger : list Z) (n : Z) : option Z :=
  first_fit_from ledger n (Z.to_nat (block_count - n + 1)) 0.

(** The blocks [start, start + n) are all free, as a proposition. *)
Definition free_run (ledger : list Z) (start n : Z) : Prop :=
  ∀ k, start ≤ k < start + n → used ledger k = false.

(** [start] is the lowest position of a run of [n] free bits among the
    first [limit] bits of the ledger. *)
Definition first_free_run (ledger : list Z) (limit n start : Z) : Prop :=
  0 ≤ start ∧ start + n ≤ limit ∧ free_run ledger start n
  ∧ ∀ i, 0 ≤ i < start → ¬ free_run ledger i n.

(** What [find_contiguous_blocks] returns for a run that starts at [start]:
    a run that starts at a byte boundary after a used block is reported one
    byte early. *)
Definition reported (start : Z) : Z :=
  if (0 <? start) && (start mod 8 =? 0) then start - 8 else start.

(** The state of the scan after the first [p] bits, none of them the end of
    a run of [n] free bits. *)
Definition scan_inv (ledger : list Z) (n p : Z) (s : bucket.scan) : Prop :=
  0 ≤ bucket.count s ≤ p
  ∧ bucket.count s < n
  ∧ free_run ledger (p - bucket.count s) (bucket.count s)
  ∧ (0 < p - bucket.count s → used ledger (p - bucket.count s - 1) = true)
  ∧ 8 * bucket.begin_index s + bucket.shift s = reported (p - bucket.count s)
  ∧ ∀ i, 0 ≤ i → i + n ≤ p → ∃ k, i ≤ k < i + n ∧ used ledger k = true.

(** A sequence of [bucket::allocate] calls on one bucket, with the pointer
    each call returned. *)
Fixpoint allocate_all (b : bucket.t) (requests : list Z)
    : option (list (option Z) * bucket.t) :=
  match requests with
  | [] => Some ([], b)
  | bytes :: rest =>
      r ← bucket.allocate b bytes;
      r' ← allocate_all r.2 rest;
      Some (r.1 :: r'.1, r'.2)
  end.

(** The two bit-range functions differ only in how a mask is applied to a
    ledger byte; [mask_range op] is their common shape. *)
Definition first_mask (bit_index bits_remaining : Z) : Z :=
  let mask := u8 (Z.shiftl 1 (8 - bit_index) - 1) in
  if bits_remaining <? 8 - bit_index
  then u8 (mask - (Z.shiftl 1 (8 - bit_index - bits_remaining) - 1))
  else mask.

Definition next_mask (bits_to_set : Z) : Z :=
  if bits_to_set <? 8 then u8 (255 - (Z.shiftl 1 (8 - bits_to_set) - 1))
  else 255.

Definition or_mask (cur mask : Z) : Z := Z.lor cur mask.

Definition and_not_mask (cur mask : Z) : Z := Z.land cur (u8 (Z.lnot mask)).

Fixpoint mask_loop (op : Z → Z → Z) (fuel : nat)
    (byte_index bits_remaining : Z) (ledger : list Z) : option (list Z) :=
  if bits_remaining >? 0 then
    match fuel with
    | O => None
    | S fuel' =>
        cur ← ledger !! Z.to_nat (byte_index + 1);
        mask_loop op fuel' (byte_index + 1)
          (bits_remaining - Z.min bits_remaining 8)
          (<[Z.to_nat (byte_index + 1) :=
               op cur (next_mask (Z.min bits_remaining 8))]> ledger)
    end
  else Some ledger.

Definition mask_range (op : Z → Z → Z) (index n : Z) (ledger : list Z)
    : option (list Z) :=
  cur ← ledger !! Z.to_nat (index / 8);
  mask_loop op (length ledger) (index / 8) (n - Z.min n (8 - index mod 8))
    (<[Z.to_nat (index / 8) := op cur (first_mask (index mod 8) n)]> ledger).

(** The pool of the driver program, with 16 blocks per bucket. *)
Definition two_buckets : list bucket.t :=
  [bucket.make 8 16 4096; bucket.make 24 16 8192].

(** * Proofs *)

Ltac zbool :=
  repeat match goal with
  | |- context [Z.gtb ?a ?b] => rewrite (Z.gtb_ltb a b)
  | |- context [Z.geb ?a ?b] => rewrite (Z.geb_leb a b)
  | H : context [Z.gtb ?a ?b] |- _ => rewrite (Z.gtb_ltb a b) in H
  | H : context [Z.geb ?a ?b] |- _ => rewrite (Z.geb_leb a b) in H
  | |- context [Z.eqb ?a ?b] => destruct (Z.eqb_spec a b)
  | |- context [Z.ltb ?a ?b] => destruct (Z.ltb_spec a b)
  | |- context [Z.leb ?a ?b] => destruct (Z.leb_spec a b)
  | H : context [Z.eqb ?a ?b] |- _ => destruct (Z.eqb_spec a b)
  | H : context [Z.ltb ?a ?b] |- _ => destruct (Z.ltb_spec a b)
  | H : context [Z.leb ?a ?b] |- _ => destruct (Z.leb_spec a b)
  end.

Lemma wrap_small z : 0 ≤ z < 2 ^ 64 → wrap z = z.
Proof. intros. unfold wrap. by apply Z.mod_small. Qed.

Lemma wrap_range z : 0 ≤ wrap z < 2 ^ 64.
Proof. unfold wrap. apply Z.mod_pos_bound. lia. Qed.

(** ** The dispatcher *)

Section dispatcher.

Lemma info_lt_false a b : info_lt b a = false → score_le a b.
Proof. unfold info_lt, score_le. intros H. zbool; try discriminate; lia. Qed.

Lemma options_lookup bytes k pool i :
  MemoryPoolAllocator.options bytes k pool !! i
  = MemoryPoolAllocator.score bytes (k + i)%nat <$> pool !! i.
Proof.
  revert k i. induction pool as [|b pool IH]; intros k i; [done|].
  destruct i as [|i]; simpl.
  - by rewrite Nat.add_0_r.
  - rewrite IH. by replace (S k + i)%nat with (k + S i)%nat by lia.
Qed.

Lemma options_length bytes k pool :
  length (MemoryPoolAllocator.options bytes k pool) = length pool.
Proof.
  revert k. induction pool as [|b pool IH]; intros k; simpl; [done|].
  by rewrite IH.
Qed.

Lemma score_index bytes i b : index (MemoryPoolAllocator.score bytes i b) = i.
Proof. unfold MemoryPoolAllocator.score. by case_match. Qed.

Lemma options_index_valid bytes pool o :
  o ∈ MemoryPoolAllocator.options bytes 0 pool →
  (index o < length pool)%nat.
Proof.
  intros [i Hi]%list_elem_of_lookup. rewrite options_lookup in Hi.
  destruct (pool !! i) as [b|] eqn:Hb; simplify_eq/=.
  rewrite score_index. by eapply lookup_lt_Some.
Qed.

(** A failed [bucket::allocate] returns before it writes anything. *)
Lemma bucket_allocate_none b bytes b' :
  bucket.allocate b bytes = Some (None, b') → b' = b.
Proof.
  unfold bucket.allocate. case_match; [congruence|].
  destruct (bucket.set_used _ _ _); simpl; congruence.
Qed.

Lemma try_options_all_none bytes opts pool :
  (∀ o, o ∈ opts → ∃ b b',
      pool !! index o = Some b ∧ bucket.allocate b bytes = Some (None, b')) →
  MemoryPoolAllocator.try_options bytes opts pool = Some (bad_alloc, pool).
Proof.
  induction opts as [|o opts IH]; intros Hall; [done|]. simpl.
  destruct (Hall o) as (b & b' & Hb & Hal); [left|].
  rewrite Hb. simpl. rewrite Hal. simpl.
  apply bucket_allocate_none in Hal as ->.
  rewrite list_insert_id by done.
  apply IH. intros o' Ho'. apply Hall. by right.
Qed.

Lemma try_options_first bytes pre o post pool b ptr b' :
  (∀ o', o' ∈ pre → ∃ b0 b1,
      pool !! index o' = Some b0 ∧ bucket.allocate b0 bytes = Some (None, b1)) →
  pool !! index o = Some b →
  bucket.allocate b bytes = Some (Some ptr, b') →
  MemoryPoolAllocator.try_options bytes (pre ++ o :: post) pool
  = Some (Returned ptr, <[index o := b']> pool).
Proof.
  induction pre as [|o' pre IH]; intros Hpre Hb Hal; simpl.
  - rewrite Hb. simpl. by rewrite Hal.
  - destruct (Hpre o') as (b0 & b1 & Hb0 & Hal0); [left|].
    rewrite Hb0. simpl. rewrite Hal0. simpl.
    apply bucket_allocate_none in Hal0 as ->.
    rewrite list_insert_id by done.
    apply IH; [|done..]. intros o'' Ho''. apply Hpre. by right.
Qed.

Lemma allocate_all_none sort pool bytes :
  std_sort_spec sort →
  (∀ b, b ∈ pool → ∃ b', bucket.allocate b bytes = Some (None, b')) →
  MemoryPoolAllocator.allocate sort pool bytes = Some (bad_alloc, pool).
Proof.
  intros Hsort Hall. unfold MemoryPoolAllocator.allocate.
  apply try_options_all_none. intros o Ho.
  destruct (Hsort (MemoryPoolAllocator.options bytes 0 pool)) as [Hperm _].
  rewrite Hperm in Ho. apply options_index_valid in Ho.
  destruct (lookup_lt_is_Some_2 pool (index o) Ho) as [b Hb].
  destruct (Hall b) as [b' Hb']; [by eapply list_elem_of_lookup_2|].
  eauto.
Qed.

Lemma deallocate_not_owned pool ptr n :
  (∀ b, b ∈ pool → bucket.belongs b ptr = false) →
  MemoryPoolAllocator.deallocate pool ptr n = Some pool.
Proof.
  induction pool as [|b pool IH]; intros Hno; [done|]. simpl.
  rewrite Hno by left. rewrite IH; [done|].
  intros b' Hb'. apply Hno. by right.
Qed.

(** The machine computation of the score agrees with the specification's
    formula. *)
Lemma score_spec bytes i b :
  0 ≤ bytes < 2 ^ 64 → 0 < bucket.BlockSize b < 2 ^ 64 →
  MemoryPoolAllocator.score bytes i b = spec_score bytes i (bucket.BlockSize b).
Proof.
  intros Hbytes Hbs. unfold MemoryPoolAllocator.score, spec_score.
  set (bs := bucket.BlockSize b) in *.
  zbool; case_decide; try lia.
  - by rewrite wrap_small by lia.
  - assert (Hn : blocks_needed bs bytes = ceil_div bytes bs).
    { unfold blocks_needed, ceil_div.
      rewrite (wrap_small (bytes - 1)) by lia.
      replace (bytes + bs - 1) with (1 * bs + (bytes - 1)) by lia.
      rewrite Z.div_add_l by lia.
      apply wrap_small.
      assert (0 ≤ (bytes - 1) / bs) by (apply Z.div_pos; lia).
      assert ((bytes - 1) / bs ≤ bytes - 1)
        by (apply Z.div_le_upper_bound; nia).
      lia. }
    rewrite Hn. f_equal.
    set (q := ceil_div bytes bs).
    assert (Hq : 0 ≤ q * bs - bytes < bs).
    { unfold q, ceil_div.
      pose proof (Z.div_mod (bytes + bs - 1) bs ltac:(lia)).
      pose proof (Z.mod_pos_bound (bytes + bs - 1) bs ltac:(lia)).
      lia. }
    unfold wrap. rewrite Zminus_mod_idemp_l.
    apply Z.mod_small. lia.
Qed.

End dispatcher.

(** Insertion sort meets the contract of [std::sort]. *)
Lemma insert_info_perm x l : insert_info x l ≡ₚ x :: l.
Proof.
  induction l as [|y l IH]; [done|]. simpl. case_match; [|done].
  rewrite IH. apply perm_swap.
Qed.

Lemma insert_info_sorted x l :
  StronglySorted (λ a b, info_lt b a = false) l →
  StronglySorted (λ a b, info_lt b a = false) (insert_info x l).
Proof.
  induction 1 as [|y l Hl IH Hy]; simpl.
  - repeat constructor.
  - destruct (info_lt y x) eqn:Hyx.
    + constructor; [done|].
      rewrite insert_info_perm. constructor; [|done].
      revert Hyx. unfold info_lt. intros. zbool; try done; lia.
    + constructor; [by constructor|].
      constructor; [done|].
      eapply Forall_impl; [exact Hy|]. simpl. intros z Hz.
      revert Hyx Hz. unfold info_lt. intros. zbool; try done; lia.
Qed.

Lemma insertion_sort_spec : std_sort_spec insertion_sort.
Proof.
  intros l. induction l as [|x l [IHp IHs]]; simpl.
  - split; [done|constructor].
  - split; [by rewrite insert_info_perm, IHp|by apply insert_info_sorted].
Qed.

(** ** Bit ranges: masks *)

Lemma pow2_diff_bits a c j :
  0 ≤ c ≤ a → 0 ≤ j →
  Z.testbit (2 ^ a - 2 ^ c) j = (c <=? j) && (j <? a).
Proof.
  intros Hca Hj.
  replace (2 ^ a - 2 ^ c) with (Z.shiftl (Z.ones (a - c)) c).
  - rewrite Z.shiftl_spec by done.
    destruct (Z.leb_spec c j); simpl.
    + rewrite Z.testbit_ones_nonneg by lia.
      destruct (Z.ltb_spec (j - c) (a - c)), (Z.ltb_spec j a); done || lia.
    + apply Z.testbit_neg_r. lia.
  - rewrite Z.shiftl_mul_pow2, Z.ones_equiv by lia.
    replace a with ((a - c) + c) at 2 by lia.
    rewrite Z.pow_add_r by lia. lia.
Qed.

Lemma pow2_diff_range a c : 0 ≤ c ≤ a → a ≤ 8 → 0 ≤ 2 ^ a - 2 ^ c < 256.
Proof.
  intros. assert (2 ^ c ≤ 2 ^ a) by (apply Z.pow_le_mono_r; lia).
  assert (2 ^ a ≤ 2 ^ 8) by (apply Z.pow_le_mono_r; lia).
  assert (0 < 2 ^ c) by (apply Z.pow_pos_nonneg; lia).
  change (2 ^ 8) with 256 in *. lia.
Qed.

Lemma first_mask_eq bit_index n :
  0 ≤ bit_index < 8 → 0 ≤ n →
  first_mask bit_index n
  = 2 ^ (8 - bit_index) - 2 ^ Z.max 0 (8 - bit_index - n).
Proof.
  intros Hb Hn. unfold first_mask, u8. rewrite !Z.shiftl_1_l.
  pose proof (pow2_diff_range (8 - bit_index) 0 ltac:(lia) ltac:(lia)) as H0.
  change (2 ^ 0) with 1 in H0.
  rewrite (Z.mod_small (2 ^ (8 - bit_index) - 1)) by lia.
  destruct (Z.ltb_spec n (8 - bit_index)).
  - rewrite Z.max_r by lia.
    pose proof (pow2_diff_range (8 - bit_index) (8 - bit_index - n)
                  ltac:(lia) ltac:(lia)).
    rewrite Z.mod_small by lia. lia.
  - rewrite Z.max_l by lia. done.
Qed.

Lemma next_mask_eq bits_to_set :
  0 < bits_to_set ≤ 8 → next_mask bits_to_set = 2 ^ 8 - 2 ^ (8 - bits_to_set).
Proof.
  intros Hb. unfold next_mask, u8. rewrite Z.shiftl_1_l.
  destruct (Z.ltb_spec bits_to_set 8).
  - pose proof (pow2_diff_range 8 (8 - bits_to_set) ltac:(lia) ltac:(lia)).
    change (2 ^ 8) with 256 in *. rewrite Z.mod_small by lia. lia.
  - by replace bits_to_set with 8 by lia.
Qed.

(** Bit [7 - t] of the first mask is set exactly for the positions [t] of
    the run inside the first byte. *)
Lemma first_mask_bits bit_index n t :
  0 ≤ bit_index < 8 → 0 ≤ n → 0 ≤ t < 8 →
  Z.testbit (first_mask bit_index n) (7 - t)
  = (bit_index <=? t) && (t <? bit_index + n).
Proof.
  intros. rewrite first_mask_eq, pow2_diff_bits by lia.
  zbool; done || lia.
Qed.

Lemma next_mask_bits bits_to_set t :
  0 < bits_to_set ≤ 8 → 0 ≤ t < 8 →
  Z.testbit (next_mask bits_to_set) (7 - t) = (t <? bits_to_set).
Proof.
  intros. rewrite next_mask_eq, pow2_diff_bits by lia.
  zbool; done || lia.
Qed.

Lemma or_mask_bits cur mask j :
  Z.testbit (or_mask cur mask) j = Z.testbit cur j || Z.testbit mask j.
Proof. apply Z.lor_spec. Qed.

Lemma and_not_mask_bits cur mask j :
  0 ≤ j < 8 →
  Z.testbit (and_not_mask cur mask) j
  = Z.testbit cur j && negb (Z.testbit mask j).
Proof.
  intros. unfold and_not_mask, u8. rewrite Z.land_spec.
  change 256 with (2 ^ 8).
  by rewrite Z.mod_pow2_bits_low, Z.lnot_spec by lia.
Qed.

Lemma or_mask_idem cur mask : or_mask (or_mask cur mask) mask = or_mask cur mask.
Proof. unfold or_mask. by rewrite <- Z.lor_assoc, Z.lor_diag. Qed.

Lemma and_not_mask_idem cur mask :
  and_not_mask (and_not_mask cur mask) mask = and_not_mask cur mask.
Proof. unfold and_not_mask. by rewrite <- Z.land_assoc, Z.land_diag. Qed.

(** The source functions are instances of the common shape. *)
Lemma set_used_loop_eq fuel byte_index bits_remaining ledger :
  bucket.set_used_loop fuel byte_index bits_remaining ledger
  = mask_loop or_mask fuel byte_index bits_remaining ledger.
Proof.
  revert byte_index bits_remaining ledger.
  induction fuel as [|fuel IH]; intros; simpl; [done|].
  case_match; [|done].
  destruct (ledger !! _); simpl; [|done]. apply IH.
Qed.

Lemma set_free_loop_eq fuel byte_index bits_remaining ledger :
  bucket.set_free_loop fuel byte_index bits_remaining ledger
  = mask_loop and_not_mask fuel byte_index bits_remaining ledger.
Proof.
  revert byte_index bits_remaining ledger.
  induction fuel as [|fuel IH]; intros; simpl; [done|].
  case_match; [|done].
  destruct (ledger !! _); simpl; [|done]. apply IH.
Qed.

Lemma set_used_eq index n ledger :
  bucket.set_used index n ledger = mask_range or_mask index n ledger.
Proof.
  unfold bucket.set_used, mask_range.
  destruct (ledger !! _); simpl; [|done].
  by rewrite set_used_loop_eq, length_insert.
Qed.

Lemma set_free_eq index n ledger :
  bucket.set_free index n ledger = mask_range and_not_mask index n ledger.
Proof.
  unfold bucket.set_free, mask_range.
  destruct (ledger !! _); simpl; [|done].
  by rewrite set_free_loop_eq, length_insert.
Qed.

(** ** Bit ranges: the loop *)

Lemma used_insert ledger i v k :
  0 ≤ i → 0 ≤ k → (Z.to_nat i < length ledger)%nat →
  used (<[Z.to_nat i := v]> ledger) k
  = if decide (k / 8 = i) then Z.testbit v (7 - k mod 8) else used ledger k.
Proof.
  intros Hi Hk Hlen. unfold used. case_decide as Heq.
  - subst i. by rewrite list_lookup_insert_eq.
  - rewrite list_lookup_insert_ne; [done|].
    assert (0 ≤ k / 8) by (apply Z.div_pos; lia). lia.
Qed.

Lemma used_lookup ledger k cur :
  ledger !! Z.to_nat (k / 8) = Some cur →
  used ledger k = Z.testbit cur (7 - k mod 8).
Proof. unfold used. by intros ->. Qed.

Section mask_range_theory.

Variable op : Z → Z → Z.

Lemma mask_loop_length fuel byte_index bits_remaining ledger ledger' :
  mask_loop op fuel byte_index bits_remaining ledger = Some ledger' →
  length ledger' = length ledger.
Proof.
  revert byte_index bits_remaining ledger.
  induction fuel as [|fuel IH]; intros bi r l; simpl;
    (destruct (r >? 0) eqn:Hr0; [|by intros [= ->]]); [done|].
  destruct (l !! _) as [cur|]; simpl; [|done].
  intros H%IH. by rewrite length_insert in H.
Qed.

(** The loop only writes bytes after [byte_index]. *)
Lemma mask_loop_frame fuel byte_index bits_remaining ledger ledger' i :
  mask_loop op fuel byte_index bits_remaining ledger = Some ledger' →
  0 ≤ byte_index → (i ≤ Z.to_nat byte_index)%nat →
  ledger' !! i = ledger !! i.
Proof.
  revert byte_index bits_remaining ledger.
  induction fuel as [|fuel IH]; intros bi r l; simpl;
    (destruct (r >? 0) eqn:Hr0; [|by intros [= ->]]); [done|].
  destruct (l !! _) as [cur|]; simpl; [|done].
  intros H Hbi Hi. erewrite IH; [|exact H|lia..].
  apply list_lookup_insert_ne. lia.
Qed.

(** Inside the ledger the loop is defined. *)
Lemma mask_loop_defined fuel byte_index bits_remaining ledger :
  0 ≤ byte_index + 1 → 0 ≤ bits_remaining →
  8 * (byte_index + 1) + bits_remaining ≤ 8 * Z.of_nat (length ledger) →
  bits_remaining ≤ 8 * Z.of_nat fuel →
  is_Some (mask_loop op fuel byte_index bits_remaining ledger).
Proof.
  revert byte_index bits_remaining ledger.
  induction fuel as [|fuel IH]; intros bi r l Hbi Hr Hin Hfuel; simpl;
    (destruct (Z.gtb_spec r 0); [|done]); [lia|].
  destruct (lookup_lt_is_Some_2 l (Z.to_nat (bi + 1)) ltac:(lia))
    as [cur ->]. simpl.
  apply IH; rewrite ?length_insert; lia.
Qed.

Hypothesis op_idem : ∀ cur mask, op (op cur mask) mask = op cur mask.

(** Running the loop again on its own result changes nothing. *)
Lemma mask_loop_idem fuel byte_index bits_remaining ledger ledger' :
  0 ≤ byte_index →
  mask_loop op fuel byte_index bits_remaining ledger = Some ledger' →
  mask_loop op fuel byte_index bits_remaining ledger' = Some ledger'.
Proof.
  revert byte_index bits_remaining ledger.
  induction fuel as [|fuel IH]; intros bi r l Hbi; simpl;
    (destruct (r >? 0) eqn:Hr0; [|done]); [done|].
  destruct (l !! Z.to_nat (bi + 1)) as [cur|] eqn:Hcur; simpl; [|done].
  intros H.
  assert (ledger' !! Z.to_nat (bi + 1)
          = Some (op cur (next_mask (Z.min r 8)))) as Hcur'.
  { erewrite mask_loop_frame; [|exact H|lia..].
    apply list_lookup_insert_eq. by eapply lookup_lt_Some. }
  rewrite Hcur'. simpl. rewrite op_idem.
  rewrite list_insert_id by done.
  eapply IH; [|exact H]. lia.
Qed.

Lemma mask_range_idem index n ledger ledger' :
  0 ≤ index →
  mask_range op index n ledger = Some ledger' →
  mask_range op index n ledger' = Some ledger'.
Proof.
  intros Hidx. unfold mask_range.
  assert (0 ≤ index / 8) as Hbi by (apply Z.div_pos; lia).
  destruct (ledger !! Z.to_nat (index / 8)) as [cur|] eqn:Hcur;
    simpl; [|done].
  intros H.
  assert (ledger' !! Z.to_nat (index / 8)
          = Some (op cur (first_mask (index mod 8) n))) as Hcur'.
  { erewrite mask_loop_frame; [|exact H|lia..].
    apply list_lookup_insert_eq. by eapply lookup_lt_Some. }
  rewrite Hcur'. simpl. rewrite op_idem.
  rewrite list_insert_id by done.
  pose proof (mask_loop_length _ _ _ _ _ H) as Hlen.
  rewrite length_insert in Hlen. rewrite Hlen.
  by eapply mask_loop_idem.
Qed.

End mask_range_theory.

Section mask_range_bits.

Variable op : Z → Z → Z.
Variable f : bool → bool → bool.
Hypothesis op_bits : ∀ cur mask j, 0 ≤ j < 8 →
  Z.testbit (op cur mask) j = f (Z.testbit cur j) (Z.testbit mask j).
Hypothesis f_false : ∀ a, f a false = a.

(** The loop applies [f _ true] to the blocks of the run that starts at
    the byte after [byte_index], and leaves every other block alone. *)
Lemma mask_loop_used fuel byte_index bits_remaining ledger ledger' :
  0 ≤ byte_index + 1 → 0 ≤ bits_remaining →
  mask_loop op fuel byte_index bits_remaining ledger = Some ledger' →
  ∀ k, 0 ≤ k →
    used ledger' k
    = f (used ledger k)
        ((8 * (byte_index + 1) <=? k)
         && (k <? 8 * (byte_index + 1) + bits_remaining)).
Proof.
  revert byte_index bits_remaining ledger.
  induction fuel as [|fuel IH]; intros bi r l Hbi Hr; simpl;
    destruct (Z.gtb_spec r 0) as [Hr0|Hr0]; try done.
  - intros [= <-] k Hk. replace r with 0 by lia.
    rewrite <- (f_false (used l k)) at 1. f_equal. zbool; done || lia.
  - destruct (l !! Z.to_nat (bi + 1)) as [cur|] eqn:Hcur; simpl; [|done].
    intros H k Hk.
    rewrite (IH (bi + 1) (r - Z.min r 8) _ ltac:(lia) ltac:(lia) H k Hk).
    rewrite used_insert by (done || lia || by eapply lookup_lt_Some).
    pose proof (Z.div_mod k 8 ltac:(lia)).
    pose proof (Z.mod_pos_bound k 8 ltac:(lia)).
    case_decide as Hq.
    + rewrite op_bits by lia.
      rewrite next_mask_bits by lia.
      rewrite (used_lookup l k cur) by (by rewrite Hq).
      replace ((8 * (bi + 1 + 1) <=? k) && _) with false
        by (zbool; done || lia).
      rewrite f_false. f_equal. zbool; done || lia.
    + f_equal. zbool; done || lia.
  - intros [= <-] k Hk. replace r with 0 by lia.
    rewrite <- (f_false (used l k)) at 1. f_equal. zbool; done || lia.
Qed.

Lemma mask_range_used index n ledger ledger' :
  0 ≤ index → 0 ≤ n →
  mask_range op index n ledger = Some ledger' →
  ∀ k, 0 ≤ k →
    used ledger' k
    = f (used ledger k) ((index <=? k) && (k <? index + n)).
Proof.
  intros Hidx Hn. unfold mask_range.
  assert (0 ≤ index / 8) as Hbi by (apply Z.div_pos; lia).
  destruct (ledger !! Z.to_nat (index / 8)) as [cur|] eqn:Hcur;
    simpl; [|done].
  intros H k Hk.
  pose proof (Z.div_mod index 8 ltac:(lia)).
  pose proof (Z.mod_pos_bound index 8 ltac:(lia)).
  pose proof (Z.div_mod k 8 ltac:(lia)).
  pose proof (Z.mod_pos_bound k 8 ltac:(lia)).
  rewrite (mask_loop_used _ (index / 8) (n - Z.min n (8 - index mod 8)) _ _
             ltac:(lia) ltac:(lia) H k Hk).
  rewrite used_insert by (done || lia || by eapply lookup_lt_Some).
  case_decide as Hq.
  - rewrite op_bits by lia.
    rewrite first_mask_bits by lia.
    rewrite (used_lookup ledger k cur) by (by rewrite Hq).
    replace ((8 * (index / 8 + 1) <=? k) && _) with false
      by (zbool; done || lia).
    rewrite f_false. f_equal. zbool; done || lia.
  - f_equal. zbool; done || lia.
Qed.

End mask_range_bits.

(** A run inside the ledger is written without leaving the buffer. *)
Lemma mask_range_defined op index n ledger :
  0 ≤ index → 0 ≤ n →
  index < 8 * Z.of_nat (length ledger) →
  index + n ≤ 8 * Z.of_nat (length ledger) →
  is_Some (mask_range op index n ledger).
Proof.
  intros Hidx Hn Hlt Hle. unfold mask_range.
  assert (0 ≤ index / 8) as Hbi by (apply Z.div_pos; lia).
  pose proof (Z.div_mod index 8 ltac:(lia)).
  pose proof (Z.mod_pos_bound index 8 ltac:(lia)).
  destruct (lookup_lt_is_Some_2 ledger (Z.to_nat (index / 8)) ltac:(lia))
    as [cur ->]. simpl.
  apply mask_loop_defined; rewrite ?length_insert; lia.
Qed.

Lemma mask_range_length op index n ledger ledger' :
  mask_range op index n ledger = Some ledger' →
  length ledger' = length ledger.
Proof.
  unfold mask_range. destruct (ledger !! _) as [cur|]; simpl; [|done].
  intros H%mask_loop_length. by rewrite length_insert in H.
Qed.

(** ** set_used and set_free *)

(** Inside the ledger, [set_used] marks the blocks [index, index + n) and
    leaves every other block as it was. *)
Lemma set_used_spec index n ledger :
  0 ≤ index → 0 ≤ n →
  index < 8 * Z.of_nat (length ledger) →
  index + n ≤ 8 * Z.of_nat (length ledger) →
  ∃ ledger', bucket.set_used index n ledger = Some ledger'
    ∧ length ledger' = length ledger
    ∧ ∀ k, 0 ≤ k →
        used ledger' k = used ledger k || ((index <=? k) && (k <? index + n)).
Proof.
  intros Hidx Hn Hlt Hle. rewrite set_used_eq.
  destruct (mask_range_defined or_mask index n ledger) as [l' Hl']; [done..|].
  exists l'. split_and!; [done|by eapply mask_range_length|].
  eapply (mask_range_used or_mask orb); [|apply orb_false_r|done..].
  intros. apply or_mask_bits.
Qed.

(** Inside the ledger, [set_free] clears the blocks [index, index + n) and
    leaves every other block as it was. *)
Lemma set_free_spec index n ledger :
  0 ≤ index → 0 ≤ n →
  index < 8 * Z.of_nat (length ledger) →
  index + n ≤ 8 * Z.of_nat (length ledger) →
  ∃ ledger', bucket.set_free index n ledger = Some ledger'
    ∧ length ledger' = length ledger
    ∧ ∀ k, 0 ≤ k →
        used ledger' k
        = used ledger k && negb ((index <=? k) && (k <? index + n)).
Proof.
  intros Hidx Hn Hlt Hle. rewrite set_free_eq.
  destruct (mask_range_defined and_not_mask index n ledger) as [l' Hl'];
    [done..|].
  exists l'. split_and!; [done|by eapply mask_range_length|].
  eapply (mask_range_used and_not_mask (λ a m, a && negb m));
    [|intros; apply andb_true_r|done..].
  intros. by apply and_not_mask_bits.
Qed.

Lemma set_used_idem index n ledger ledger' :
  0 ≤ index →
  bucket.set_used index n ledger = Some ledger' →
  bucket.set_used index n ledger' = Some ledger'.
Proof. rewrite !set_used_eq. apply mask_range_idem, or_mask_idem. Qed.

Lemma set_free_idem index n ledger ledger' :
  0 ≤ index →
  bucket.set_free index n ledger = Some ledger' →
  bucket.set_free index n ledger' = Some ledger'.
Proof. rewrite !set_free_eq. apply mask_range_idem, and_not_mask_idem. Qed.

(** ** The scan *)

(** A run of [n] free blocks cannot be counted when fewer than [n] bits are
    left, nor when [n] is 0: the counter is compared after its increment. *)
Lemma scan_byte_short n cur i j1 s :
  0 ≤ bucket.count s →
  bucket.count s + Z.of_nat j1 < 2 ^ 64 →
  n ≤ 0 ∨ bucket.count s + Z.of_nat j1 < n →
  ∃ s', bucket.scan_byte n cur i j1 s = (s', false)
    ∧ 0 ≤ bucket.count s' ≤ bucket.count s + Z.of_nat j1.
Proof.
  revert s. induction j1 as [|j IH]; intros s Hc Hmax Hn; simpl.
  - exists s. split; [done|lia].
  - destruct (_ =? 0).
    + rewrite wrap_small by lia.
      destruct (Z.eqb_spec (bucket.count s + 1) n) as [Heq|Hne]; [lia|].
      edestruct IH as (s' & -> & Hs'); [..|exists s'; split; [done|]];
        simpl in *; lia.
    + edestruct IH as (s' & -> & Hs'); [..|exists s'; split; [done|]];
        simpl in *; lia.
Qed.

Lemma scan_ledger_short n bytes i s :
  0 ≤ bucket.count s →
  bucket.count s + 8 * Z.of_nat (length bytes) < 2 ^ 64 →
  n ≤ 0 ∨ bucket.count s + 8 * Z.of_nat (length bytes) < n →
  bucket.scan_ledger n bytes i s = None.
Proof.
  revert i s. induction bytes as [|cur bytes IH]; intros i s Hc Hmax Hn;
    [done|]. cbn [bucket.scan_ledger length] in *.
  destruct (scan_byte_short n cur i 8 s) as (s' & -> & Hs'); [lia..|].
  apply IH; lia.
Qed.

Lemma allocate_short b bytes :
  wf b →
  blocks_needed (bucket.BlockSize b) bytes = 0
  ∨ 8 * bucket.ledger_size (bucket.BlockCount b)
    < blocks_needed (bucket.BlockSize b) bytes →
  bucket.allocate b bytes = Some (None, b).
Proof.
  intros (Hbs & Hbc & Hls & Hlen) Hn.
  unfold bucket.allocate, bucket.find_contiguous_blocks.
  rewrite scan_ledger_short; simpl; [by rewrite Z.eqb_refl|lia..].
Qed.

(** * The claims *)

Lemma allocate_found b bytes index ledger :
  bucket.find_contiguous_blocks b (blocks_needed (bucket.BlockSize b) bytes)
  = index →
  index ≠ bucket.BlockCount b →
  bucket.set_used index (blocks_needed (bucket.BlockSize b) bytes)
    (bucket.ledger_ b) = Some ledger →
  bucket.allocate b bytes
  = Some (Some (bucket.data_ b + wrap (index * bucket.BlockSize b)),
          bucket.with_ledger b ledger).
Proof.
  intros Hfind Hne Hset. unfold bucket.allocate. rewrite Hfind.
  destruct (Z.eqb_spec index (bucket.BlockCount b)); [done|].
  by rewrite Hset.
Qed.

(** Claim C1. First fit fails at a byte boundary. The instance of the
    specification holds: with 16 blocks and blocks 0, 1, 2 used, a one-block
    request gets block 3. But when the last block of a ledger byte is used,
    the scan restarts the run at the first block of that byte instead of the
    first block of the next one: after eight one-block allocations on a
    fresh 16-block bucket, blocks 0..7 are used, the lowest free block is 8,
    and the ninth allocation returns block 0 a second time. *)
Theorem first_fit_byte_boundary :
  bucket.allocate (bucket.mk 1 16 4096 [224; 0]) 1
  = Some (Some (4096 + 3), bucket.mk 1 16 4096 [240; 0])
  ∧ allocate_all (bucket.make 1 16 4096) (replicate 9 1)
    = Some ([Some 4096; Some 4097; Some 4098; Some 4099; Some 4100;
             Some 4101; Some 4102; Some 4103; Some 4096],
            bucket.mk 1 16 4096 [255; 0])
  ∧ bucket.find_contiguous_blocks (bucket.mk 1 16 4096 [255; 0]) 1 = 0
  ∧ used [255; 0] 0 = true
  ∧ first_fit 16 [255; 0] 1 = Some 8.
Proof. by vm_compute. Qed.

(** Claim C2. Padding bits are allocated. A fresh bucket of 3 blocks has a
    one-byte ledger whose bits 3..7 are padding and 0; a request for 4
    blocks succeeds on it, marks the run [0, 4) and so sets the padding bit
    at position 3, a block index that is not below the block count. *)
Theorem padding_bit_allocated :
  bucket.ledger_ (bucket.make 1 3 4096) = [0]
  ∧ bucket.allocate (bucket.make 1 3 4096) 4
    = Some (Some 4096, bucket.mk 1 3 4096 [240])
  ∧ used [240] 3 = true.
Proof. by vm_compute. Qed.

(** Claim C5. The round trip does not restore a block the allocation did
    not own. With blocks 0..7 of a 16-block bucket used, [allocate] for one
    block returns the address of block 0 and changes nothing; the matching
    [deallocate] clears block 0, whose value before the allocation was
    "used". *)
Theorem round_trip_clears_used_block :
  allocate_all (bucket.make 1 16 4096) (replicate 8 1)
  = Some ([Some 4096; Some 4097; Some 4098; Some 4099; Some 4100;
           Some 4101; Some 4102; Some 4103],
          bucket.mk 1 16 4096 [255; 0])
  ∧ bucket.allocate (bucket.mk 1 16 4096 [255; 0]) 1
    = Some (Some 4096, bucket.mk 1 16 4096 [255; 0])
  ∧ bucket.deallocate (bucket.mk 1 16 4096 [255; 0]) 4096 1
    = Some (bucket.mk 1 16 4096 [127; 0])
  ∧ used [255; 0] 0 = true
  ∧ used [127; 0] 0 = false.
Proof. by vm_compute. Qed.

(** Claim C6. On a fresh bucket of 16 blocks of 8 bytes (a ledger of 2
    bytes), [allocate(40)] needs 5 blocks and marks exactly the blocks 0..4;
    the next [allocate(8)] returns the address of block 5. *)
Theorem allocate_40_then_8 base :
  blocks_needed 8 40 = 5
  ∧ length (bucket.ledger_ (bucket.make 8 16 base)) = 2%nat
  ∧ ∃ b1 b2,
      bucket.allocate (bucket.make 8 16 base) 40 = Some (Some base, b1)
      ∧ used (bucket.ledger_ b1) <$> seqZ 0 16
        = replicate 5 true ++ replicate 11 false
      ∧ bucket.allocate b1 8 = Some (Some (base + 5 * 8), b2).
Proof.
  split; [done|]. split; [done|].
  exists (bucket.mk 8 16 base [248; 0]), (bucket.mk 8 16 base [252; 0]).
  split_and!.
  - rewrite (allocate_found _ 40 0 [248; 0]) by done.
    cbn [bucket.make bucket.data_ bucket.BlockSize].
    change (wrap (0 * 8)) with 0. by rewrite Z.add_0_r.
  - done.
  - by rewrite (allocate_found _ 8 5 [252; 0]).
Qed.

(** Claim C7. A bucket whose blocks are all used still allocates. On a
    fresh bucket of 3 blocks, [allocate(4)] marks blocks 0..2 and the padding
    bit 3; every block of the bucket is now used, and [allocate(1)] returns
    the address of the padding position 4 instead of none. *)
Theorem exhausted_bucket_allocates :
  allocate_all (bucket.make 1 3 4096) [4; 1]
  = Some ([Some 4096; Some 4100], bucket.mk 1 3 4096 [248])
  ∧ used [240] <$> seqZ 0 3 = [true; true; true]
  ∧ bucket.allocate (bucket.mk 1 3 4096 [240]) 1
    = Some (Some 4100, bucket.mk 1 3 4096 [248]).
Proof. by vm_compute. Qed.

Lemma sorted_score_le l :
  StronglySorted (λ a b, info_lt b a = false) l → StronglySorted score_le l.
Proof.
  induction 1 as [|x l Hl IH Hx]; constructor; [done|].
  eapply Forall_impl; [exact Hx|]. intros y. apply info_lt_false.
Qed.

(** Claim C3. Every bucket is scored as the specification says, the buckets
    are tried by ascending waste with ties broken by ascending number of
    blocks, and the call returns the result of the first bucket in that
    order whose [allocate] does not return none. *)
Theorem dispatcher_selection sort pool bytes :
  std_sort_spec sort →
  0 ≤ bytes < 2 ^ 64 →
  (∀ b, b ∈ pool → 0 < bucket.BlockSize b < 2 ^ 64) →
  let opts := MemoryPoolAllocator.options bytes 0 pool in
  (∀ i b, pool !! i = Some b →
     opts !! i = Some (spec_score bytes i (bucket.BlockSize b)))
  ∧ length opts = length pool
  ∧ sort opts ≡ₚ opts
  ∧ StronglySorted score_le (sort opts)
  ∧ ∀ pre o post b ptr b',
      sort opts = pre ++ o :: post →
      (∀ o', o' ∈ pre → ∃ b0 b1,
         pool !! index o' = Some b0
         ∧ bucket.allocate b0 bytes = Some (None, b1)) →
      pool !! index o = Some b →
      bucket.allocate b bytes = Some (Some ptr, b') →
      MemoryPoolAllocator.allocate sort pool bytes
      = Some (Returned ptr, <[index o := b']> pool).
Proof.
  intros Hsort Hbytes Hpool opts. split_and!.
  - intros i b Hb. unfold opts. rewrite options_lookup, Hb. simpl.
    f_equal. apply score_spec; [done|].
    apply Hpool. by eapply list_elem_of_lookup_2.
  - apply options_length.
  - apply Hsort.
  - apply sorted_score_le, Hsort.
  - intros pre o post b ptr b' Hsplit Hpre Hb Hal.
    unfold MemoryPoolAllocator.allocate. fold opts. rewrite Hsplit.
    by eapply try_options_first.
Qed.

Lemma dispatcher_selection_witness :
  std_sort_spec insertion_sort
  ∧ MemoryPoolAllocator.options 10 0 two_buckets
    = [spec_score 10 0 8; spec_score 10 1 24]
  ∧ MemoryPoolAllocator.allocate insertion_sort two_buckets 10
    = Some (Returned 4096,
            [bucket.mk 8 16 4096 [192; 0]; bucket.make 24 16 8192]).
Proof.
  split; [exact insertion_sort_spec|].
  assert (∀ b, b ∈ two_buckets → 0 < bucket.BlockSize b < 2 ^ 64) as Hbs.
  { intros b [->|[->|[]%elem_of_nil]%elem_of_cons]%elem_of_cons;
      simpl; lia. }
  destruct (dispatcher_selection insertion_sort two_buckets 10
              insertion_sort_spec ltac:(lia) Hbs)
    as (Hscore & _ & _ & _ & Hfirst).
  split; [done|].
  apply (Hfirst [] (mk_info 0 2 6) [mk_info 1 1 14]
           (bucket.make 8 16 4096) 4096 (bucket.mk 8 16 4096 [192; 0]));
    [done| |done|done].
  by intros o' ?%elem_of_nil.
Defined.

(** Claim C4. When every bucket returns none, the dispatcher fails with
    [std::bad_alloc] and the pool, every ledger included, is as before. *)
Theorem pool_exhaustion sort pool bytes :
  std_sort_spec sort →
  (∀ b, b ∈ pool → ∃ b', bucket.allocate b bytes = Some (None, b')) →
  MemoryPoolAllocator.allocate sort pool bytes = Some (bad_alloc, pool).
Proof. apply allocate_all_none. Qed.

Lemma pool_exhaustion_witness :
  std_sort_spec insertion_sort
  ∧ MemoryPoolAllocator.allocate insertion_sort
      [bucket.mk 8 8 4096 [255]; bucket.mk 24 16 8192 [255; 255]] 8
    = Some (bad_alloc,
            [bucket.mk 8 8 4096 [255]; bucket.mk 24 16 8192 [255; 255]]).
Proof.
  split; [exact insertion_sort_spec|].
  apply (pool_exhaustion insertion_sort); [exact insertion_sort_spec|].
  intros b [->|[->|[]%elem_of_nil]%elem_of_cons]%elem_of_cons;
    eexists; by vm_compute.
Defined.

(** Claim C8. An address that no bucket claims makes the dispatcher's
    [deallocate] return without a change to any bucket. *)
Theorem foreign_deallocate_noop pool ptr n :
  (∀ b, b ∈ pool → bucket.belongs b ptr = false) →
  MemoryPoolAllocator.deallocate pool ptr n = Some pool.
Proof. apply deallocate_not_owned. Qed.

Lemma foreign_deallocate_noop_witness :
  MemoryPoolAllocator.deallocate
    [bucket.mk 8 16 4096 [248; 0]; bucket.mk 24 16 8192 [128; 0]] 4224 8
  = Some [bucket.mk 8 16 4096 [248; 0]; bucket.mk 24 16 8192 [128; 0]].
Proof.
  apply foreign_deallocate_noop.
  by intros b [->|[->|[]%elem_of_nil]%elem_of_cons]%elem_of_cons.
Defined.


(** What [bucket::allocate] computes as the block count of a request of 0
    bytes: the subtraction wraps to [2^64 - 1], and for a block size of 1
    the addition wraps to 0. *)
Lemma blocks_needed_zero block_size :
  0 < block_size < 2 ^ 64 →
  blocks_needed block_size 0
  = if decide (block_size = 1) then 0 else 1 + (2 ^ 64 - 1) / block_size.
Proof.
  intros Hbs. unfold blocks_needed.
  change (wrap (0 - 1)) with (2 ^ 64 - 1).
  case_decide as H1; [by subst|].
  apply wrap_small.
  assert (0 ≤ (2 ^ 64 - 1) / block_size) by (apply Z.div_pos; lia).
  assert ((2 ^ 64 - 1) / block_size < 2 ^ 63)
    by (apply Z.div_lt_upper_bound; lia).
  lia.
Qed.



Lemma make_wf block_size block_count base :
  0 < block_size < 2 ^ 64 → 0 < block_count ≤ 2 ^ 34 - 8 →
  wf (bucket.make block_size block_count base).
Proof.
  intros Hbs Hbc. unfold wf, bucket.make, bucket.ledger_size. simpl.
  rewrite (wrap_small (block_count - 1)) by lia.
  assert (0 ≤ (block_count - 1) / 8) by (apply Z.div_pos; lia).
  assert ((block_count - 1) / 8 < 2 ^ 31 - 1)
    by (apply Z.div_lt_upper_bound; lia).
  rewrite wrap_small by lia. rewrite length_replicate. lia.
Qed.



(** Claim C10. Inside the ledger, applying [set_free] or [set_used] a second
    time with the same arguments changes nothing, and so a second
    [bucket::deallocate] with the same arguments leaves the bucket as the
    first one left it. *)
Theorem bit_range_idempotent index n ledger :
  0 ≤ index → 0 ≤ n →
  index < 8 * Z.of_nat (length ledger) →
  index + n ≤ 8 * Z.of_nat (length ledger) →
  (∃ ledger', bucket.set_free index n ledger = Some ledger'
     ∧ bucket.set_free index n ledger' = Some ledger')
  ∧ (∃ ledger', bucket.set_used index n ledger = Some ledger'
       ∧ bucket.set_used index n ledger' = Some ledger')
  ∧ ∀ b ptr bytes,
      bucket.ledger_ b = ledger →
      wrap (ptr - bucket.data_ b) / bucket.BlockSize b = index →
      blocks_needed (bucket.BlockSize b) bytes = n →
      ∃ b', bucket.deallocate b ptr bytes = Some b'
        ∧ bucket.deallocate b' ptr bytes = Some b'.
Proof.
  intros Hidx Hn Hlt Hle.
  destruct (set_free_spec index n ledger) as (lf & Hlf & _); [done..|].
  destruct (set_used_spec index n ledger) as (lu & Hlu & _); [done..|].
  split_and!.
  - exists lf. split; [done|]. by eapply set_free_idem.
  - exists lu. split; [done|]. by eapply set_used_idem.
  - intros b ptr bytes Hb Hindex Hbytes.
    exists (bucket.with_ledger b lf). unfold bucket.deallocate. simpl.
    rewrite Hindex, Hbytes, Hb, Hlf. simpl. split; [done|].
    by rewrite (set_free_idem _ _ _ _ Hidx Hlf).
Qed.

Lemma bit_range_idempotent_witness :
  (∃ ledger', bucket.set_free 3 13 [255; 255; 255] = Some ledger'
     ∧ bucket.set_free 3 13 ledger' = Some ledger')
  ∧ (∃ ledger', bucket.set_used 3 13 [255; 255; 255] = Some ledger'
       ∧ bucket.set_used 3 13 ledger' = Some ledger')
  ∧ ∃ b', bucket.deallocate (bucket.mk 8 24 4096 [255; 255; 255]) 4120 100
          = Some b'
      ∧ bucket.deallocate b' 4120 100 = Some b'.
Proof.
  destruct (bit_range_idempotent 3 13 [255; 255; 255])
    as (Hfree & Hused & Hdealloc); [simpl; lia..|].
  split_and!; [done..|].
  by apply (Hdealloc (bucket.mk 8 24 4096 [255; 255; 255]) 4120 100).
Defined.

(** ** The scan, characterised *)

Lemma land_bit_test cur j :
  0 ≤ j → (Z.land cur (Z.shiftl 1 j) =? 0) = negb (Z.testbit cur j).
Proof.
  intros Hj. rewrite Z.shiftl_1_l.
  assert (Z.land cur (2 ^ j) = if Z.testbit cur j then 2 ^ j else 0) as ->.
  { apply Z.bits_inj'. intros m Hm.
    rewrite Z.land_spec, Z.pow2_bits_eqb by done.
    destruct (Z.eqb_spec j m) as [->|Hne].
    - destruct (Z.testbit cur m) eqn:Hc; simpl.
      + by rewrite Z.pow2_bits_eqb, Z.eqb_refl.
      + by rewrite Z.bits_0.
    - rewrite andb_false_r. destruct (Z.testbit cur j).
      + rewrite Z.pow2_bits_eqb by done. symmetry. by apply Z.eqb_neq.
      + by rewrite Z.bits_0. }
  destruct (Z.testbit cur j); simpl; [|done].
  apply Z.eqb_neq. assert (0 < 2 ^ j) by (by apply Z.pow_pos_nonneg). lia.
Qed.

(** The test of the inner loop reads the block at position [8 * i + 7 - j]. *)
Lemma scan_test ledger i cur j :
  0 ≤ i → 0 ≤ j < 8 → ledger !! Z.to_nat i = Some cur →
  (Z.land cur (Z.shiftl 1 j) =? 0) = negb (used ledger (8 * i + 7 - j)).
Proof.
  intros Hi Hj Hcur. rewrite land_bit_test by lia. unfold used.
  assert ((8 * i + 7 - j) / 8 = i) as ->
    by (symmetry; apply (Z.div_unique _ 8 i (7 - j)); lia).
  assert ((8 * i + 7 - j) mod 8 = 7 - j) as ->
    by (symmetry; apply (Z.mod_unique _ 8 i (7 - j)); lia).
  rewrite Hcur. do 2 f_equal. lia.
Qed.

Lemma reported_after_used i j :
  0 ≤ i → 0 ≤ j < 8 → 8 * i + (8 - j) mod 8 = reported (8 * i + 7 - j + 1).
Proof.
  intros Hi Hj. unfold reported.
  destruct (decide (j = 0)) as [->|Hne].
  - replace (8 * i + 7 - 0 + 1) with ((i + 1) * 8) by lia.
    rewrite Z.mod_mul by lia. change ((8 - 0) mod 8) with 0.
    destruct (Z.ltb_spec 0 ((i + 1) * 8)); simpl; lia.
  - rewrite (Z.mod_small (8 - j)) by lia.
    assert ((8 * i + 7 - j + 1) mod 8 = 8 - j) as ->
      by (symmetry; apply (Z.mod_unique _ 8 i (8 - j)); lia).
    destruct (Z.eqb_spec (8 - j) 0); [lia|]. rewrite andb_false_r. lia.
Qed.

(** One byte of the scan: either the invariant holds at the end of the
    byte, or the scan stops at the end of the lowest run, and reports it
    with the byte-boundary shift. *)
Lemma scan_byte_inv ledger n i cur j1 s :
  1 ≤ n → 0 ≤ i → ledger !! Z.to_nat i = Some cur →
  (j1 ≤ 8)%nat → 8 * i + 8 < 2 ^ 64 →
  scan_inv ledger n (8 * i + 8 - Z.of_nat j1) s →
  match bucket.scan_byte n cur i j1 s with
  | (s', false) => scan_inv ledger n (8 * i + 8) s'
  | (s', true) =>
      ∃ start, first_free_run ledger (8 * i + 8) n start
        ∧ 8 * bucket.begin_index s' + bucket.shift s' = reported start
  end.
Proof.
  intros Hn Hi Hcur. revert s.
  induction j1 as [|j IH]; intros s Hj Hmax Hinv.
  { simpl. by rewrite Z.sub_0_r in Hinv. }
  cbn [bucket.scan_byte].
  rewrite (scan_test ledger i cur (Z.of_nat j)) by (lia || done).
  set (p := 8 * i + 7 - Z.of_nat j) in *.
  replace (8 * i + 8 - Z.of_nat (S j)) with p in Hinv by lia.
  destruct Hinv as (Hc & Hcn & Hfree & Hlast & Hrep & Hno).
  destruct (used ledger p) eqn:Hp; simpl.
  - apply IH; [lia|done|].
    replace (8 * i + 8 - Z.of_nat j) with (p + 1) by lia.
    unfold scan_inv; simpl. split_and!; try lia.
    + intros k Hk. lia.
    + intros _. by replace (p + 1 - 0 - 1) with p by lia.
    + rewrite Z.sub_0_r. apply reported_after_used; lia.
    + intros i0 Hi0 Hle. destruct (decide (i0 + n ≤ p)); [by apply Hno|].
      exists p. split; [lia|done].
  - rewrite wrap_small by lia.
    destruct (Z.eqb_spec (bucket.count s + 1) n) as [Heq|Hne].
    + exists (p - bucket.count s). split; [|done].
      unfold first_free_run. split_and!; try lia.
      * intros k Hk. destruct (decide (k = p)) as [->|]; [done|].
        apply Hfree. lia.
      * intros i0 Hi0 Hrun.
        destruct (Hno i0) as (k & Hk & Hused); [lia..|].
        by rewrite Hrun in Hused.
    + apply IH; [lia|done|].
      replace (8 * i + 8 - Z.of_nat j) with (p + 1) by lia.
      unfold scan_inv; simpl.
      replace (p + 1 - (bucket.count s + 1)) with (p - bucket.count s)
        by lia.
      split_and!; try done; try lia.
      * intros k Hk. destruct (decide (k = p)) as [->|]; [done|].
        apply Hfree. lia.
      * intros i0 Hi0 Hle. destruct (decide (i0 + n ≤ p)); [by apply Hno|].
        exists (p - bucket.count s - 1). split; [lia|]. apply Hlast. lia.
Qed.

Lemma first_free_run_limit ledger limit limit' n start :
  limit ≤ limit' →
  first_free_run ledger limit n start → first_free_run ledger limit' n start.
Proof. intros ? (? & ? & ? & ?). unfold first_free_run. split_and!; try done; lia. Qed.

(** The whole scan from byte [i] on. *)
Lemma scan_ledger_inv ledger n bytes i s :
  1 ≤ n → 0 ≤ i → 8 * Z.of_nat (length ledger) < 2 ^ 64 →
  drop (Z.to_nat i) ledger = bytes →
  scan_inv ledger n (8 * i) s →
  match bucket.scan_ledger n bytes i s with
  | Some index =>
      ∃ start, first_free_run ledger (8 * Z.of_nat (length ledger)) n start
        ∧ index = reported start
  | None =>
      ∀ i0, 0 ≤ i0 → i0 + n ≤ 8 * Z.of_nat (length ledger) →
        ∃ k, i0 ≤ k < i0 + n ∧ used ledger k = true
  end.
Proof.
  intros Hn. revert i s.
  induction bytes as [|cur bytes IH]; intros i s Hi Hmax Hdrop Hinv.
  - simpl. intros i0 Hi0 Hle.
    apply drop_nil_inv in Hdrop.
    destruct Hinv as (_ & _ & _ & _ & _ & Hno). apply Hno; lia.
  - assert (ledger !! Z.to_nat i = Some cur) as Hcur.
    { rewrite <- (Nat.add_0_r (Z.to_nat i)), <- lookup_drop. by rewrite Hdrop. }
    pose proof (lookup_lt_Some _ _ _ Hcur) as Hlt.
    cbn [bucket.scan_ledger].
    pose proof (scan_byte_inv ledger n i cur 8 s Hn Hi Hcur
                  ltac:(done) ltac:(lia)) as Hbyte.
    replace (8 * i + 8 - Z.of_nat 8) with (8 * i) in Hbyte by lia.
    specialize (Hbyte Hinv).
    destruct (bucket.scan_byte n cur i 8 s) as [s' [|]].
    + destruct Hbyte as (start & Hfirst & Hrep).
      exists start. split; [|done].
      eapply first_free_run_limit; [|done]. lia.
    + apply IH; [lia|done| |].
      * rewrite (drop_S _ _ _ Hcur) in Hdrop.
        replace (Z.to_nat (i + 1)) with (S (Z.to_nat i)) by lia.
        congruence.
      * by replace (8 * (i + 1)) with (8 * i + 8) by lia.
Qed.

Lemma reported_range start : 0 ≤ start → 0 ≤ reported start ≤ start.
Proof.
  intros Hs. unfold reported.
  destruct (Z.ltb_spec 0 start), (Z.eqb_spec (start mod 8) 0); simpl;
    try lia.
  pose proof (Z.div_mod start 8 ltac:(lia)). lia.
Qed.

Lemma reported_unshifted start :
  start = 0 ∨ start mod 8 ≠ 0 → reported start = start.
Proof.
  intros Hs. unfold reported.
  destruct (Z.ltb_spec 0 start), (Z.eqb_spec (start mod 8) 0); simpl; lia.
Qed.

Lemma scan_inv_init ledger n :
  1 ≤ n → scan_inv ledger n (8 * 0) (bucket.mk_scan 0 0 0).
Proof.
  intros Hn. unfold scan_inv; simpl. split_and!; try done; try lia.
  intros k Hk. lia.
Qed.

(** What [find_contiguous_blocks] computes, on a ledger within the range of
    its [int] counter, for a request of at least one block: the lowest run of [n] free bits among all the bits of the ledger,
    padding included, reported with the byte-boundary shift; or
    [BlockCount] when the ledger has no such run. *)
Theorem find_contiguous_blocks_spec b n :
  1 ≤ n → Z.of_nat (length (bucket.ledger_ b)) < 2 ^ 31 →
  (∃ start,
     first_free_run (bucket.ledger_ b)
       (8 * Z.of_nat (length (bucket.ledger_ b))) n start
     ∧ bucket.find_contiguous_blocks b n = reported start)
  ∨ ((∀ i, 0 ≤ i → i + n ≤ 8 * Z.of_nat (length (bucket.ledger_ b)) →
        ¬ free_run (bucket.ledger_ b) i n)
     ∧ bucket.find_contiguous_blocks b n = bucket.BlockCount b).
Proof.
  intros Hn Hmax. unfold bucket.find_contiguous_blocks.
  pose proof (scan_ledger_inv (bucket.ledger_ b) n (bucket.ledger_ b) 0
                (bucket.mk_scan 0 0 0) Hn ltac:(done) ltac:(lia) eq_refl
                (scan_inv_init _ n Hn)) as Hscan.
  destruct (bucket.scan_ledger _ _ _ _) as [index|].
  - left. destruct Hscan as (start & Hfirst & ->). by exists start.
  - right. split; [|done]. intros i Hi Hle Hrun.
    destruct (Hscan i Hi Hle) as (k & Hk & Hused).
    by rewrite Hrun in Hused.
Qed.

(** [bucket::allocate] on a well-formed bucket never leaves the ledger: it
    returns none and changes nothing, or it returns the address of a block
    [index] and marks exactly the blocks [index, index + n). *)
Theorem allocate_spec b bytes :
  wf b →
  let n := blocks_needed (bucket.BlockSize b) bytes in
  bucket.allocate b bytes = Some (None, b)
  ∨ ∃ index ledger,
      index = bucket.find_contiguous_blocks b n
      ∧ 0 ≤ index
      ∧ index + n ≤ 8 * Z.of_nat (length (bucket.ledger_ b))
      ∧ bucket.allocate b bytes
        = Some (Some (bucket.data_ b + wrap (index * bucket.BlockSize b)),
                bucket.with_ledger b ledger)
      ∧ length ledger = length (bucket.ledger_ b)
      ∧ ∀ k, 0 ≤ k →
          used ledger k
          = used (bucket.ledger_ b) k || ((index <=? k) && (k <? index + n)).
Proof.
  intros Hwf n. pose proof Hwf as (Hbs & Hbc & Hls & Hlen).
  pose proof (wrap_range (1 + wrap (bytes - 1) / bucket.BlockSize b)) as Hn.
  fold (blocks_needed (bucket.BlockSize b) bytes) in Hn. fold n in Hn.
  destruct (decide (n = 0)) as [Hn0|Hn0].
  { left. apply allocate_short; [done|by left]. }
  destruct (find_contiguous_blocks_spec b n) as
    [(start & Hfirst & Hfind)|[_ Hfind]]; [lia..| |].
  - destruct (decide (reported start = bucket.BlockCount b)) as [Heq|Hne].
    { left. unfold bucket.allocate. fold n. rewrite Hfind, Heq.
      by rewrite Z.eqb_refl. }
    right. destruct Hfirst as (Hs0 & Hsn & _).
    pose proof (reported_range start Hs0) as Hrep.
    destruct (set_used_spec (reported start) n (bucket.ledger_ b))
      as (ledger & Hset & Hlen' & Hbits); [lia..|].
    exists (reported start), ledger. split_and!; try done; try lia.
    rewrite <- Hfind. apply allocate_found; fold n; [done|by rewrite Hfind|].
    by rewrite Hfind.
  - left. unfold bucket.allocate. fold n. rewrite Hfind.
    by rewrite Z.eqb_refl.
Qed.

Lemma allocate_defined b bytes : wf b → is_Some (bucket.allocate b bytes).
Proof.
  intros Hwf.
  destruct (allocate_spec b bytes Hwf) as [->|(? & ? & _ & _ & _ & -> & _)];
    eauto.
Qed.

Lemma allocate_wf b bytes r : wf b → bucket.allocate b bytes = Some r → wf r.2.
Proof.
  intros Hwf. pose proof Hwf as (Hbs & Hbc & Hls & Hlen).
  destruct (allocate_spec b bytes Hwf)
    as [->|(? & ? & _ & _ & _ & -> & Hl & _)]; intros [= <-]; [done|].
  unfold wf. simpl. by rewrite Hl.
Qed.

Lemma first_free_run_unique ledger limit limit' n start start' :
  first_free_run ledger limit n start →
  first_free_run ledger limit' n start' → start = start'.
Proof.
  intros (Hs & _ & Hrun & Hmin) (Hs' & _ & Hrun' & Hmin').
  destruct (Z.lt_trichotomy start start') as [Hlt|[Heq|Hgt]]; [|done|].
  - by destruct (Hmin' start).
  - by destruct (Hmin start').
Qed.

(** The ledger has between [block_count] and [block_count + 7] bits, a
    multiple of 8. *)
Lemma ledger_size_bits block_count :
  0 < block_count < 2 ^ 64 →
  block_count ≤ 8 * bucket.ledger_size block_count < block_count + 8.
Proof.
  intros Hbc. unfold bucket.ledger_size.
  rewrite (wrap_small (block_count - 1)) by lia.
  pose proof (Z.div_mod (block_count - 1) 8 ltac:(lia)).
  pose proof (Z.mod_pos_bound (block_count - 1) 8 ltac:(lia)).
  rewrite wrap_small; lia.
Qed.

(** A fresh bucket has every ledger bit clear, padding included. *)
Lemma make_all_free block_size block_count base k :
  used (bucket.ledger_ (bucket.make block_size block_count base)) k = false.
Proof.
  unfold used, bucket.make. simpl.
  destruct (replicate _ _ !! _) as [cur|] eqn:Hcur; [|done].
  apply lookup_replicate in Hcur as [-> _]. apply Z.bits_0.
Qed.

(** First fit holds when the lowest free run within the blocks of the
    bucket starts at block 0 or inside a ledger byte: that block is
    returned and exactly the run is marked. *)
Theorem allocate_first_fit b bytes start :
  wf b →
  let n := blocks_needed (bucket.BlockSize b) bytes in
  1 ≤ n →
  first_free_run (bucket.ledger_ b) (bucket.BlockCount b) n start →
  start = 0 ∨ start mod 8 ≠ 0 →
  ∃ ledger,
    bucket.allocate b bytes
    = Some (Some (bucket.data_ b + wrap (start * bucket.BlockSize b)),
            bucket.with_ledger b ledger)
    ∧ length ledger = length (bucket.ledger_ b)
    ∧ ∀ k, 0 ≤ k →
        used ledger k
        = used (bucket.ledger_ b) k || ((start <=? k) && (k <? start + n)).
Proof.
  intros Hwf n Hn Hfirst Hstart. pose proof Hwf as (Hbs & Hbc & Hls & Hlen).
  pose proof (ledger_size_bits _ Hbc) as Hbits.
  assert (bucket.find_contiguous_blocks b n = start) as Hfind.
  { destruct (find_contiguous_blocks_spec b n) as
      [(start' & Hfirst' & ->)|[Hno _]]; [lia..| |].
    - rewrite <- (first_free_run_unique _ _ _ _ _ _ Hfirst Hfirst').
      by apply reported_unshifted.
    - destruct Hfirst as (Hs & Hsn & Hrun & _).
      destruct (Hno start); [lia..|done]. }
  destruct Hfirst as (Hs & Hsn & Hrun & _).
  destruct (set_used_spec start n (bucket.ledger_ b))
    as (ledger & Hset & Hlen' & Hused); [lia..|].
  exists ledger. split_and!; [|done..].
  apply allocate_found; fold n; [done|lia|done].
Qed.

(** A bucket whose blocks are all used and whose padding bits are all clear
    returns none, for every byte length. *)
Theorem allocate_exhausted b bytes :
  wf b →
  (∀ k, 0 ≤ k < bucket.BlockCount b → used (bucket.ledger_ b) k = true) →
  (∀ k, bucket.BlockCount b ≤ k → used (bucket.ledger_ b) k = false) →
  bucket.allocate b bytes = Some (None, b).
Proof.
  intros Hwf Hused Hpad. pose proof Hwf as (Hbs & Hbc & Hls & Hlen).
  pose proof (ledger_size_bits _ Hbc) as Hbits.
  set (n := blocks_needed (bucket.BlockSize b) bytes).
  pose proof (wrap_range (1 + wrap (bytes - 1) / bucket.BlockSize b)) as Hn.
  fold (blocks_needed (bucket.BlockSize b) bytes) in Hn. fold n in Hn.
  destruct (decide (n = 0)) as [Hn0|Hn0].
  { apply allocate_short; [done|by left]. }
  assert (bucket.find_contiguous_blocks b n = bucket.BlockCount b) as Hfind.
  { destruct (find_contiguous_blocks_spec b n) as
      [(start & (Hs & Hsn & Hrun & Hmin) & ->)|[_ ->]]; [lia..| |done].
    assert (start = bucket.BlockCount b) as ->.
    { destruct (Z.lt_trichotomy start (bucket.BlockCount b))
        as [Hlt|[Heq|Hgt]]; [|done|].
      - pose proof (Hused start ltac:(lia)) as Hu.
        rewrite Hrun in Hu by lia. done.
      - destruct (Hmin (bucket.BlockCount b)); [lia|].
        intros k Hk. apply Hpad. lia. }
    apply reported_unshifted. right. intros Hmod.
    pose proof (Z.div_mod (bucket.BlockCount b) 8 ltac:(lia)). lia. }
  unfold bucket.allocate. fold n. by rewrite Hfind, Z.eqb_refl.
Qed.

(** The round trip holds whenever first fit does: the paired [deallocate]
    gives every block the value it had before the [allocate]. *)
Theorem allocate_deallocate b bytes start :
  wf b →
  let n := blocks_needed (bucket.BlockSize b) bytes in
  1 ≤ n →
  first_free_run (bucket.ledger_ b) (bucket.BlockCount b) n start →
  start = 0 ∨ start mod 8 ≠ 0 →
  bucket.BlockSize b * bucket.BlockCount b < 2 ^ 64 →
  ∃ b' b'',
    bucket.allocate b bytes
    = Some (Some (bucket.data_ b + start * bucket.BlockSize b), b')
    ∧ bucket.deallocate b' (bucket.data_ b + start * bucket.BlockSize b) bytes
      = Some b''
    ∧ ∀ k, 0 ≤ k →
        used (bucket.ledger_ b'') k = used (bucket.ledger_ b) k.
Proof.
  intros Hwf n Hn Hfirst Hstart Harena.
  pose proof Hwf as (Hbs & Hbc & Hls & Hlen).
  pose proof (ledger_size_bits _ Hbc) as Hbits.
  destruct (allocate_first_fit b bytes start Hwf Hn Hfirst Hstart)
    as (ledger & Halloc & Hlen' & Hused).
  destruct Hfirst as (Hs & Hsn & Hrun & _). fold n in Hsn, Hrun, Hused.
  rewrite wrap_small in Halloc by nia.
  destruct (set_free_spec start n ledger)
    as (ledger' & Hset & _ & Hfree); [lia..|].
  exists (bucket.with_ledger b ledger), (bucket.with_ledger b ledger').
  split_and!; [done| |].
  - unfold bucket.deallocate. simpl. fold n.
    replace (bucket.data_ b + start * bucket.BlockSize b - bucket.data_ b)
      with (start * bucket.BlockSize b) by lia.
    rewrite wrap_small by nia. rewrite Z.div_mul by lia.
    by rewrite Hset.
  - intros k Hk. simpl. rewrite Hfree, Hused by done.
    destruct ((start <=? k) && (k <? start + n)) eqn:Hin; simpl.
    + rewrite andb_false_r. symmetry. apply Hrun.
      apply andb_true_iff in Hin. lia.
    + by rewrite orb_false_r, andb_true_r.
Qed.

(** ** The executable first fit *)

Lemma run_free_spec ledger index n :
  run_free ledger index n = true ↔ free_run ledger index n.
Proof.
  unfold run_free, free_run. rewrite <- Is_true_true, forallb_True, Forall_forall.
  split.
  - intros H k Hk. apply negb_true_iff, Is_true_true, H, elem_of_seqZ. lia.
  - intros H k Hk%elem_of_seqZ. apply Is_true_true, negb_true_iff, H. lia.
Qed.

Lemma first_fit_from_spec ledger n candidates index start :
  first_fit_from ledger n candidates index = Some start →
  index ≤ start < index + Z.of_nat candidates
  ∧ free_run ledger start n
  ∧ ∀ i, index ≤ i < start → ¬ free_run ledger i n.
Proof.
  revert index. induction candidates as [|c IH]; intros index; simpl; [done|].
  destruct (run_free ledger index n) eqn:Hrun.
  - intros [= <-]. split_and!; [lia..|by apply run_free_spec|lia].
  - intros (Hr & Hfree & Hmin)%IH. split_and!; [lia..|done|].
    intros i Hi. destruct (decide (i = index)) as [->|Hne].
    + rewrite <- run_free_spec. by rewrite Hrun.
    + apply Hmin. lia.
Qed.

(** The executable first fit computes the lowest free run. *)
Lemma first_fit_spec block_count ledger n start :
  first_fit block_count ledger n = Some start →
  first_free_run ledger block_count n start.
Proof.
  unfold first_fit. intros (Hr & Hfree & Hmin)%first_fit_from_spec.
  unfold first_free_run. split_and!; [lia..|done|].
  intros i Hi. apply Hmin. lia.
Qed.

Lemma used_beyond ledger k :
  8 * Z.of_nat (length ledger) ≤ k → used ledger k = false.
Proof.
  intros Hk. unfold used. rewrite lookup_ge_None_2; [done|].
  assert (Z.of_nat (length ledger) ≤ k / 8)
    by (apply Z.div_le_lower_bound; lia).
  lia.
Qed.

(** The conditional theorems at concrete buckets. *)
Example allocate_exhausted_3 bytes :
  bucket.allocate (bucket.mk 1 3 4096 [224]) bytes
  = Some (None, bucket.mk 1 3 4096 [224]).
Proof.
  apply allocate_exhausted.
  - by unfold wf.
  - simpl. intros k Hk.
    assert (k = 0 ∨ k = 1 ∨ k = 2) as [->|[->| ->]] by lia; done.
  - simpl. intros k Hk. destruct (decide (k < 8)).
    + assert (k = 3 ∨ k = 4 ∨ k = 5 ∨ k = 6 ∨ k = 7)
        as [->|[->|[->|[->| ->]]]] by lia; done.
    + apply used_beyond. simpl. lia.
Qed.

Example allocate_deallocate_13 :
  ∃ b' b'',
    bucket.allocate (bucket.mk 8 24 4096 [224; 0; 6]) 100
    = Some (Some (4096 + 3 * 8), b')
    ∧ bucket.deallocate b' (4096 + 3 * 8) 100 = Some b''
    ∧ ∀ k, 0 ≤ k →
        used (bucket.ledger_ b'') k = used [224; 0; 6] k.
Proof.
  apply (allocate_deallocate (bucket.mk 8 24 4096 [224; 0; 6]) 100 3).
  - by unfold wf.
  - done.
  - by apply first_fit_spec.
  - by right.
  - done.
Qed.

(** * Further properties of the code *)

(** ** Helper lemmas *)

Lemma first_fit_from_none ledger n candidates index :
  first_fit_from ledger n candidates index = None →
  ∀ i, index ≤ i < index + Z.of_nat candidates → ¬ free_run ledger i n.
Proof.
  revert index. induction candidates as [|c IH]; intros index; simpl.
  - intros _ i Hi. lia.
  - destruct (run_free ledger index n) eqn:Hrun; [done|].
    intros Hnone i Hi. destruct (decide (i = index)) as [->|Hne].
    + rewrite <- run_free_spec. by rewrite Hrun.
    + apply (IH _ Hnone). lia.
Qed.

Lemma blocks_needed_bounds block_size bytes :
  0 < block_size < 2 ^ 64 → 1 ≤ bytes < 2 ^ 64 →
  blocks_needed block_size bytes = 1 + (bytes - 1) / block_size
  ∧ 1 ≤ blocks_needed block_size bytes ≤ bytes
  ∧ (blocks_needed block_size bytes - 1) * block_size < bytes
  ∧ bytes ≤ blocks_needed block_size bytes * block_size.
Proof.
  intros Hbs Hbytes. unfold blocks_needed.
  rewrite (wrap_small (bytes - 1)) by lia.
  assert (0 ≤ (bytes - 1) / block_size) by (apply Z.div_pos; lia).
  assert ((bytes - 1) / block_size ≤ bytes - 1)
    by (apply Z.div_le_upper_bound; nia).
  rewrite wrap_small by lia.
  pose proof (Z.div_mod (bytes - 1) block_size ltac:(lia)).
  pose proof (Z.mod_pos_bound (bytes - 1) block_size ltac:(lia)).
  split_and!; try lia; nia.
Qed.


(** ** The constructor *)

(** X1. A bucket built for [block_count] blocks has a ledger of
    [ceil(block_count / 8)] bytes, which is between [block_count] and
    [block_count + 7] bits, and every bit of it, padding included, is
    clear. *)
Theorem fresh_bucket block_size block_count base :
  0 < block_count < 2 ^ 64 →
  block_count
  ≤ 8 * Z.of_nat (length (bucket.ledger_
                            (bucket.make block_size block_count base)))
  < block_count + 8
  ∧ ∀ k, used (bucket.ledger_ (bucket.make block_size block_count base)) k
         = false.
Proof.
  intros Hbc. split; [|intros k; apply make_all_free].
  pose proof (ledger_size_bits _ Hbc) as Hbits.
  unfold bucket.make. simpl. rewrite length_replicate. lia.
Qed.

Lemma fresh_bucket_witness :
  100
  ≤ 8 * Z.of_nat (length (bucket.ledger_ (bucket.make 8 100 4096)))
  < 100 + 8
  ∧ ∀ k, used (bucket.ledger_ (bucket.make 8 100 4096)) k = false.
Proof. apply (fresh_bucket 8 100 4096). lia. Defined.

(** ** find_contiguous_blocks *)

(** X2. On a well-formed bucket, whose ledger is within the range of the
    [int] loop counter, and for a request of at least one block,
    [find_contiguous_blocks] returns [BlockCount] when no run of [n] free bits exists among all the
    bits of the ledger; otherwise it returns the start of the lowest such
    run, except that a run starting at a byte boundary other than 0 is
    returned 8 positions lower. The padding bits count as blocks. *)
Theorem find_contiguous_blocks_result b n :
  wf b → 1 ≤ n →
  bucket.find_contiguous_blocks b n
  = match first_fit (8 * Z.of_nat (length (bucket.ledger_ b)))
            (bucket.ledger_ b) n with
    | Some start => reported start
    | None => bucket.BlockCount b
    end.
Proof.
  intros (_ & _ & Hls & Hlen) Hn.
  destruct (find_contiguous_blocks_spec b n Hn ltac:(lia))
    as [(start & Hfirst & ->)|[Hno ->]].
  - destruct (first_fit _ _ _) as [start'|] eqn:Hfit.
    + apply first_fit_spec in Hfit.
      by rewrite (first_free_run_unique _ _ _ _ _ _ Hfirst Hfit).
    + destruct Hfirst as (Hs & Hsn & Hrun & _).
      destruct (first_fit_from_none _ _ _ _ Hfit start); [lia|done].
  - destruct (first_fit _ _ _) as [start'|] eqn:Hfit; [|done].
    apply first_fit_spec in Hfit as (Hs & Hsn & Hrun & _).
    by destruct (Hno start').
Qed.

Lemma find_contiguous_blocks_result_witness :
  bucket.find_contiguous_blocks (bucket.mk 8 24 4096 [255; 1; 0]) 3
  = match first_fit (8 * Z.of_nat (length [255; 1; 0])) [255; 1; 0] 3 with
    | Some start => reported start
    | None => 24
    end.
Proof.
  apply (find_contiguous_blocks_result (bucket.mk 8 24 4096 [255; 1; 0]) 3);
    [by unfold wf|lia].
Defined.

(** ** bucket::allocate *)

(** X3. On a well-formed bucket [allocate] never reads or writes outside the
    ledger. It leaves the block size, block count, arena and ledger length
    as they are, and the bucket well-formed. When it returns none the bucket
    is unchanged; when it returns an address, that address is the arena base
    plus [index * BlockSize] for a position [index] whose run
    [index, index + n) lies within the bits of the ledger, exactly the blocks
    of that run are marked, and every other block keeps its value. *)
Theorem allocate_memory_safe b bytes :
  wf b →
  ∃ r b',
    bucket.allocate b bytes = Some (r, b')
    ∧ wf b'
    ∧ bucket.BlockSize b' = bucket.BlockSize b
    ∧ bucket.BlockCount b' = bucket.BlockCount b
    ∧ bucket.data_ b' = bucket.data_ b
    ∧ length (bucket.ledger_ b') = length (bucket.ledger_ b)
    ∧ (r = None → b' = b)
    ∧ ∀ ptr, r = Some ptr →
        ∃ index,
          ptr = bucket.data_ b + wrap (index * bucket.BlockSize b)
          ∧ 0 ≤ index
          ∧ index + blocks_needed (bucket.BlockSize b) bytes
            ≤ 8 * Z.of_nat (length (bucket.ledger_ b))
          ∧ ∀ k, 0 ≤ k →
              used (bucket.ledger_ b') k
              = used (bucket.ledger_ b) k
                || ((index <=? k)
                    && (k <? index
                             + blocks_needed (bucket.BlockSize b) bytes)).
Proof.
  intros Hwf. pose proof Hwf as (Hbs & Hbc & Hls & Hlen).
  destruct (allocate_spec b bytes Hwf)
    as [Hnone|(index & ledger & _ & Hidx & Hin & Hal & Hl & Hbits)].
  - exists None, b. split_and!; try done.
  - exists (Some (bucket.data_ b + wrap (index * bucket.BlockSize b))),
      (bucket.with_ledger b ledger).
    split_and!; try done.
    + unfold wf. simpl. by rewrite Hl.
    + intros ptr [= <-]. exists index. by split_and!.
Qed.

Lemma allocate_memory_safe_witness :
  ∃ r b',
    bucket.allocate (bucket.mk 8 24 4096 [255; 1; 0]) 20 = Some (r, b')
    ∧ wf b'
    ∧ bucket.BlockSize b' = 8
    ∧ bucket.BlockCount b' = 24
    ∧ bucket.data_ b' = 4096
    ∧ length (bucket.ledger_ b') = 3%nat
    ∧ (r = None → b' = bucket.mk 8 24 4096 [255; 1; 0])
    ∧ ∀ ptr, r = Some ptr →
        ∃ index,
          ptr = 4096 + wrap (index * 8)
          ∧ 0 ≤ index
          ∧ index + blocks_needed 8 20 ≤ 8 * Z.of_nat 3
          ∧ ∀ k, 0 ≤ k →
              used (bucket.ledger_ b') k
              = used [255; 1; 0] k
                || ((index <=? k) && (k <? index + blocks_needed 8 20)).
Proof.
  apply (allocate_memory_safe (bucket.mk 8 24 4096 [255; 1; 0]) 20).
  by unfold wf.
Defined.



(** X5. A bucket whose blocks are all marked used and whose padding bits
    are all clear returns none for every byte length, 0 included, and is
    left unchanged. *)
Theorem allocate_none_when_exhausted b bytes :
  wf b →
  (∀ k, 0 ≤ k < bucket.BlockCount b → used (bucket.ledger_ b) k = true) →
  (∀ k, bucket.BlockCount b ≤ k → used (bucket.ledger_ b) k = false) →
  bucket.allocate b bytes = Some (None, b).
Proof. apply allocate_exhausted. Qed.

Lemma allocate_none_when_exhausted_witness :
  bucket.allocate (bucket.mk 8 11 4096 [255; 224]) 24
  = Some (None, bucket.mk 8 11 4096 [255; 224]).
Proof.
  apply allocate_none_when_exhausted.
  - by unfold wf.
  - simpl. intros k Hk.
    assert (k = 0 ∨ k = 1 ∨ k = 2 ∨ k = 3 ∨ k = 4 ∨ k = 5 ∨ k = 6 ∨ k = 7
            ∨ k = 8 ∨ k = 9 ∨ k = 10)
      as [->|[->|[->|[->|[->|[->|[->|[->|[->|[->| ->]]]]]]]]]] by lia; done.
  - simpl. intros k Hk. destruct (decide (k < 16)).
    + assert (k = 11 ∨ k = 12 ∨ k = 13 ∨ k = 14 ∨ k = 15)
        as [->|[->|[->|[->| ->]]]] by lia; done.
    + apply used_beyond. simpl. lia.
Defined.





(** ** set_used and set_free *)

(** X8. For a run inside the ledger, [set_used] marks the blocks
    [index, index + n), keeps the ledger length, and leaves every other
    block as it was, across byte boundaries and for every length. *)
Theorem set_used_marks_run index n ledger :
  0 ≤ index → 0 ≤ n →
  index < 8 * Z.of_nat (length ledger) →
  index + n ≤ 8 * Z.of_nat (length ledger) →
  ∃ ledger', bucket.set_used index n ledger = Some ledger'
    ∧ length ledger' = length ledger
    ∧ ∀ k, 0 ≤ k →
        used ledger' k = used ledger k || ((index <=? k) && (k <? index + n)).
Proof. apply set_used_spec. Qed.

Lemma set_used_marks_run_witness :
  ∃ ledger', bucket.set_used 5 14 [3; 0; 129] = Some ledger'
    ∧ length ledger' = length [3; 0; 129]
    ∧ ∀ k, 0 ≤ k →
        used ledger' k = used [3; 0; 129] k || ((5 <=? k) && (k <? 5 + 14)).
Proof. apply (set_used_marks_run 5 14 [3; 0; 129]); simpl; lia. Defined.

(** X9. For a run inside the ledger, [set_free] clears the blocks
    [index, index + n), keeps the ledger length, and leaves every other
    block as it was; it does not look at the previous value of the blocks
    it clears. *)
Theorem set_free_clears_run index n ledger :
  0 ≤ index → 0 ≤ n →
  index < 8 * Z.of_nat (length ledger) →
  index + n ≤ 8 * Z.of_nat (length ledger) →
  ∃ ledger', bucket.set_free index n ledger = Some ledger'
    ∧ length ledger' = length ledger
    ∧ ∀ k, 0 ≤ k →
        used ledger' k
        = used ledger k && negb ((index <=? k) && (k <? index + n)).
Proof. apply set_free_spec. Qed.

Lemma set_free_clears_run_witness :
  ∃ ledger', bucket.set_free 5 14 [255; 15; 129] = Some ledger'
    ∧ length ledger' = length [255; 15; 129]
    ∧ ∀ k, 0 ≤ k →
        used ledger' k
        = used [255; 15; 129] k && negb ((5 <=? k) && (k <? 5 + 14)).
Proof. apply (set_free_clears_run 5 14 [255; 15; 129]); simpl; lia. Defined.

Lemma mask_loop_undefined op fuel byte_index bits_remaining ledger :
  0 ≤ byte_index + 1 ≤ Z.of_nat (length ledger) →
  8 * Z.of_nat (length ledger) < 8 * (byte_index + 1) + bits_remaining →
  mask_loop op fuel byte_index bits_remaining ledger = None.
Proof.
  revert byte_index bits_remaining ledger.
  induction fuel as [|fuel IH]; intros bi r l Hbi Hout; simpl;
    (destruct (Z.gtb_spec r 0); [|lia]); [done|].
  destruct (l !! Z.to_nat (bi + 1)) as [cur|] eqn:Hcur; simpl; [|done].
  apply lookup_lt_Some in Hcur.
  apply IH; rewrite length_insert; lia.
Qed.

Lemma mask_range_undefined op index n ledger :
  0 ≤ index → 0 ≤ n →
  ¬ (index < 8 * Z.of_nat (length ledger)
     ∧ index + n ≤ 8 * Z.of_nat (length ledger)) →
  mask_range op index n ledger = None.
Proof.
  intros Hidx Hn Hout. unfold mask_range.
  assert (0 ≤ index / 8) as Hbi by (apply Z.div_pos; lia).
  pose proof (Z.div_mod index 8 ltac:(lia)).
  pose proof (Z.mod_pos_bound index 8 ltac:(lia)).
  destruct (ledger !! Z.to_nat (index / 8)) as [cur|] eqn:Hcur; simpl;
    [|done].
  apply lookup_lt_Some in Hcur.
  apply mask_loop_undefined; rewrite length_insert; lia.
Qed.

(** X10. Neither function checks a bound: for a non-negative position and
    length, [set_used] and [set_free] stay inside the ledger buffer exactly
    when the position is inside it and the run ends inside it; otherwise
    they access a byte past its end. *)
Theorem bit_range_in_bounds_iff index n ledger :
  0 ≤ index → 0 ≤ n →
  (is_Some (bucket.set_used index n ledger)
   ↔ index < 8 * Z.of_nat (length ledger)
     ∧ index + n ≤ 8 * Z.of_nat (length ledger))
  ∧ (is_Some (bucket.set_free index n ledger)
     ↔ index < 8 * Z.of_nat (length ledger)
       ∧ index + n ≤ 8 * Z.of_nat (length ledger)).
Proof.
  intros Hidx Hn. rewrite set_used_eq, set_free_eq.
  split; (split; [|by intros []; apply mask_range_defined]);
    intros Hsome;
    destruct (decide (index < 8 * Z.of_nat (length ledger)
                      ∧ index + n ≤ 8 * Z.of_nat (length ledger)))
      as [|Hout]; try done;
    rewrite (mask_range_undefined _ _ _ _ Hidx Hn Hout) in Hsome;
    by destruct Hsome.
Qed.

Lemma bit_range_in_bounds_iff_witness :
  (is_Some (bucket.set_used 20 5 [0; 0; 0])
   ↔ 20 < 8 * Z.of_nat (length [0; 0; 0])
     ∧ 20 + 5 ≤ 8 * Z.of_nat (length [0; 0; 0]))
  ∧ (is_Some (bucket.set_free 20 5 [0; 0; 0])
     ↔ 20 < 8 * Z.of_nat (length [0; 0; 0])
       ∧ 20 + 5 ≤ 8 * Z.of_nat (length [0; 0; 0])).
Proof. apply (bit_range_in_bounds_iff 20 5 [0; 0; 0]); lia. Defined.

(** ** bucket::deallocate *)

Lemma deallocate_spec b offset bytes :
  0 < bucket.BlockSize b →
  0 ≤ offset < 2 ^ 64 →
  offset / bucket.BlockSize b < 8 * Z.of_nat (length (bucket.ledger_ b)) →
  offset / bucket.BlockSize b + blocks_needed (bucket.BlockSize b) bytes
  ≤ 8 * Z.of_nat (length (bucket.ledger_ b)) →
  ∃ ledger,
    bucket.deallocate b (bucket.data_ b + offset) bytes
    = Some (bucket.with_ledger b ledger)
    ∧ length ledger = length (bucket.ledger_ b)
    ∧ ∀ k, 0 ≤ k →
        used ledger k
        = used (bucket.ledger_ b) k
          && negb ((offset / bucket.BlockSize b <=? k)
                   && (k <? offset / bucket.BlockSize b
                            + blocks_needed (bucket.BlockSize b) bytes)).
Proof.
  intros Hbs Hoff Hlt Hle.
  assert (0 ≤ offset / bucket.BlockSize b) by (apply Z.div_pos; lia).
  pose proof (wrap_range (1 + wrap (bytes - 1) / bucket.BlockSize b)) as Hn.
  fold (blocks_needed (bucket.BlockSize b) bytes) in Hn.
  destruct (set_free_spec (offset / bucket.BlockSize b)
              (blocks_needed (bucket.BlockSize b) bytes) (bucket.ledger_ b))
    as (ledger & Hset & Hlen & Hbits); [lia..|].
  exists ledger. split_and!; [|done..].
  unfold bucket.deallocate.
  replace (bucket.data_ b + offset - bucket.data_ b) with offset by lia.
  rewrite wrap_small by done. by rewrite Hset.
Qed.

(** X11. [deallocate] takes the block that contains the address, rounding
    an unaligned address down, and clears the run of
    [n = 1 + (bytes - 1) / BlockSize] blocks from there, when that run lies
    inside the ledger. It neither checks that the blocks were used nor sets
    any bit, and every block outside the run keeps its value. *)
Theorem deallocate_clears_run b offset bytes :
  0 < bucket.BlockSize b →
  0 ≤ offset < 2 ^ 64 →
  offset / bucket.BlockSize b < 8 * Z.of_nat (length (bucket.ledger_ b)) →
  offset / bucket.BlockSize b + blocks_needed (bucket.BlockSize b) bytes
  ≤ 8 * Z.of_nat (length (bucket.ledger_ b)) →
  ∃ ledger,
    bucket.deallocate b (bucket.data_ b + offset) bytes
    = Some (bucket.with_ledger b ledger)
    ∧ length ledger = length (bucket.ledger_ b)
    ∧ ∀ k, 0 ≤ k →
        used ledger k
        = used (bucket.ledger_ b) k
          && negb ((offset / bucket.BlockSize b <=? k)
                   && (k <? offset / bucket.BlockSize b
                            + blocks_needed (bucket.BlockSize b) bytes)).
Proof. apply deallocate_spec. Qed.

Lemma deallocate_clears_run_witness :
  ∃ ledger,
    bucket.deallocate (bucket.mk 8 24 4096 [255; 255; 0]) (4096 + 37) 30
    = Some (bucket.with_ledger (bucket.mk 8 24 4096 [255; 255; 0]) ledger)
    ∧ length ledger = length [255; 255; 0]
    ∧ ∀ k, 0 ≤ k →
        used ledger k
        = used [255; 255; 0] k
          && negb ((37 / 8 <=? k) && (k <? 37 / 8 + blocks_needed 8 30)).
Proof.
  apply (deallocate_clears_run (bucket.mk 8 24 4096 [255; 255; 0]) 37 30);
    by vm_compute.
Defined.





(** ** info::operator< *)

(** X14. [operator<] is a strict weak order, as [std::sort] requires: it is
    irreflexive and transitive, and being unordered either way is
    transitive. Two scores are unordered exactly when they have the same
    waste and the same block count; the bucket index plays no part. *)
Theorem info_lt_strict_weak_order :
  (∀ a, info_lt a a = false)
  ∧ (∀ a b c, info_lt a b = true → info_lt b c = true → info_lt a c = true)
  ∧ (∀ a b c,
       info_lt a b = false ∧ info_lt b a = false →
       info_lt b c = false ∧ info_lt c b = false →
       info_lt a c = false ∧ info_lt c a = false)
  ∧ ∀ a b,
      info_lt a b = false ∧ info_lt b a = false
      ↔ waste a = waste b ∧ block_count a = block_count b.
Proof.
  unfold info_lt. split_and!.
  - intros a. rewrite Z.eqb_refl. apply Z.ltb_irrefl.
  - intros a b c. zbool; try done; lia.
  - intros a b c. zbool; intros [] []; try done; lia.
  - intros a b. zbool; split; intros []; try done; lia.
Qed.

(** ** MemoryPoolAllocator::allocate *)

(** X15. For a request of at least one byte, the block count in a bucket's
    score is the run length [bucket::allocate] will use, the run holds the
    request, and the waste is what is left of the run, less than one block.
    For a request of 0 bytes the score says 1 block with a whole block of
    waste, which is not the run length [bucket::allocate] computes. *)
Theorem score_matches_bucket_run bytes i b :
  0 < bucket.BlockSize b < 2 ^ 64 →
  (1 ≤ bytes < 2 ^ 64 →
   index (MemoryPoolAllocator.score bytes i b) = i
   ∧ block_count (MemoryPoolAllocator.score bytes i b)
     = blocks_needed (bucket.BlockSize b) bytes
   ∧ 0 ≤ waste (MemoryPoolAllocator.score bytes i b) < bucket.BlockSize b
   ∧ bytes + waste (MemoryPoolAllocator.score bytes i b)
     = block_count (MemoryPoolAllocator.score bytes i b)
       * bucket.BlockSize b)
  ∧ block_count (MemoryPoolAllocator.score 0 i b) = 1
  ∧ waste (MemoryPoolAllocator.score 0 i b) = bucket.BlockSize b
  ∧ blocks_needed (bucket.BlockSize b) 0 ≠ 1.
Proof.
  intros Hbs. split_and!.
  - intros Hbytes. rewrite score_spec by lia. unfold spec_score.
    destruct (blocks_needed_bounds _ _ Hbs Hbytes) as (Hn & _ & Hlo & Hhi).
    case_decide as Hle; simpl.
    + split_and!; try lia. rewrite Hn.
      rewrite Z.div_small; lia.
    + assert (ceil_div bytes (bucket.BlockSize b)
              = blocks_needed (bucket.BlockSize b) bytes) as ->.
      { rewrite Hn. unfold ceil_div.
        replace (bytes + bucket.BlockSize b - 1)
          with (1 * bucket.BlockSize b + (bytes - 1)) by lia.
        rewrite Z.div_add_l; lia. }
      split_and!; lia.
  - rewrite score_spec by lia. unfold spec_score. by case_decide; [|lia].
  - rewrite score_spec by lia. unfold spec_score.
    case_decide; simpl; lia.
  - rewrite blocks_needed_zero by done. case_decide; [done|].
    assert (1 ≤ (2 ^ 64 - 1) / bucket.BlockSize b)
      by (apply Z.div_le_lower_bound; lia).
    lia.
Qed.

Lemma score_matches_bucket_run_witness :
  (index (MemoryPoolAllocator.score 20 0 (bucket.make 8 16 4096)) = 0%nat
   ∧ block_count (MemoryPoolAllocator.score 20 0 (bucket.make 8 16 4096))
     = blocks_needed 8 20
   ∧ 0 ≤ waste (MemoryPoolAllocator.score 20 0 (bucket.make 8 16 4096)) < 8
   ∧ 20 + waste (MemoryPoolAllocator.score 20 0 (bucket.make 8 16 4096))
     = block_count (MemoryPoolAllocator.score 20 0 (bucket.make 8 16 4096))
       * 8)
  ∧ block_count (MemoryPoolAllocator.score 0 0 (bucket.make 8 16 4096)) = 1
  ∧ waste (MemoryPoolAllocator.score 0 0 (bucket.make 8 16 4096)) = 8
  ∧ blocks_needed 8 0 ≠ 1.
Proof.
  destruct (score_matches_bucket_run 20 0%nat (bucket.make 8 16 4096))
    as (H1 & H0); [simpl; lia|].
  split; [apply H1; lia|].
  destruct (score_matches_bucket_run 0 0%nat (bucket.make 8 16 4096))
    as (_ & H2); [simpl; lia|].
  exact H2.
Defined.

(** What a defined run of the second loop did: every bucket tried before
    the one that served the request returned none, and only the serving
    bucket was written. *)
Lemma try_options_inv bytes opts pool out pool' :
  MemoryPoolAllocator.try_options bytes opts pool = Some (out, pool') →
  match out with
  | bad_alloc =>
      pool' = pool
      ∧ ∀ o, o ∈ opts → ∃ b,
          pool !! index o = Some b
          ∧ bucket.allocate b bytes = Some (None, b)
  | Returned ptr =>
      ∃ pre o post b b',
        opts = pre ++ o :: post
        ∧ (∀ o', o' ∈ pre → ∃ b0,
             pool !! index o' = Some b0
             ∧ bucket.allocate b0 bytes = Some (None, b0))
        ∧ pool !! index o = Some b
        ∧ bucket.allocate b bytes = Some (Some ptr, b')
        ∧ pool' = <[index o := b']> pool
  end.
Proof.
  induction opts as [|o opts IH]; simpl.
  - intros [= <- <-]. split; [done|]. by intros o ?%elem_of_nil.
  - destruct (pool !! index o) as [b|] eqn:Hb; simpl; [|done].
    destruct (bucket.allocate b bytes) as [[[ptr|] b']|] eqn:Hal; simpl;
      [| |done].
    + intros [= <- <-]. exists [], o, opts, b, b'.
      split_and!; try done. by intros o' ?%elem_of_nil.
    + pose proof (bucket_allocate_none _ _ _ Hal) as ->.
      rewrite list_insert_id by done. intros Hrest.
      specialize (IH Hrest). destruct out as [ptr|].
      * destruct IH as (pre & o1 & post & b1 & b1' & -> & Hpre & ? & ? & ?).
        exists (o :: pre), o1, post, b1, b1'. split_and!; try done.
        intros o' [->|Ho']%elem_of_cons; [eauto|by apply Hpre].
      * destruct IH as [-> Hall]. split; [done|].
        intros o' [->|Ho']%elem_of_cons; [eauto|by apply Hall].
Qed.

Lemma try_options_defined bytes opts pool :
  (∀ o, o ∈ opts → (index o < length pool)%nat) →
  (∀ b, b ∈ pool → wf b) →
  is_Some (MemoryPoolAllocator.try_options bytes opts pool).
Proof.
  induction opts as [|o opts IH]; intros Hidx Hwf; simpl; [done|].
  destruct (lookup_lt_is_Some_2 pool (index o)) as [b Hb];
    [apply Hidx; left|].
  rewrite Hb. simpl.
  destruct (allocate_defined b bytes) as [[[ptr|] b'] Hal];
    [apply Hwf; by eapply list_elem_of_lookup_2|..]; rewrite Hal; simpl;
    [done|].
  apply bucket_allocate_none in Hal as ->.
  rewrite list_insert_id by done.
  apply IH; [|done]. intros o' Ho'. apply Hidx. by right.
Qed.

Lemma options_elem bytes pool i b :
  pool !! i = Some b →
  MemoryPoolAllocator.score bytes i b
  ∈ MemoryPoolAllocator.options bytes 0 pool.
Proof.
  intros Hb. apply list_elem_of_lookup. exists i.
  by rewrite options_lookup, Hb.
Qed.

Lemma options_elem_inv bytes pool o :
  o ∈ MemoryPoolAllocator.options bytes 0 pool →
  ∃ b, pool !! index o = Some b
       ∧ o = MemoryPoolAllocator.score bytes (index o) b.
Proof.
  intros [i Hi]%list_elem_of_lookup. rewrite options_lookup in Hi.
  destruct (pool !! i) as [b|] eqn:Hb; simplify_eq/=.
  rewrite score_index. eauto.
Qed.

(** X16. On a pool of well-formed buckets the dispatcher's [allocate] never
    leaves a ledger buffer and keeps every bucket well-formed. It ends in
    one of two ways: with [std::bad_alloc], the pool unchanged, and only
    when every bucket of the pool returns none for the request; or with a
    pointer that one bucket's [allocate] returned, that bucket being the
    only one written. *)
Theorem dispatcher_allocate_outcome sort pool bytes :
  std_sort_spec sort →
  (∀ b, b ∈ pool → wf b) →
  ∃ out pool',
    MemoryPoolAllocator.allocate sort pool bytes = Some (out, pool')
    ∧ length pool' = length pool
    ∧ (∀ b, b ∈ pool' → wf b)
    ∧ match out with
      | bad_alloc =>
          pool' = pool
          ∧ ∀ b, b ∈ pool → bucket.allocate b bytes = Some (None, b)
      | Returned ptr =>
          ∃ i b b',
            pool !! i = Some b
            ∧ bucket.allocate b bytes = Some (Some ptr, b')
            ∧ pool' = <[i := b']> pool
      end.
Proof.
  intros Hsort Hwf. unfold MemoryPoolAllocator.allocate.
  destruct (Hsort (MemoryPoolAllocator.options bytes 0 pool)) as [Hperm _].
  destruct (try_options_defined bytes
              (sort (MemoryPoolAllocator.options bytes 0 pool)) pool)
    as [[out pool'] Htry]; [|done|].
  { intros o Ho. rewrite Hperm in Ho. by eapply options_index_valid. }
  exists out, pool'. split; [done|].
  pose proof (try_options_inv _ _ _ _ _ Htry) as Hinv.
  destruct out as [ptr|].
  - destruct Hinv as (pre & o & post & b & b' & _ & _ & Hb & Hal & ->).
    split_and!.
    + apply length_insert.
    + intros b0 Hb0%list_elem_of_lookup. destruct Hb0 as [j Hj].
      destruct (decide (j = index o)) as [->|Hne].
      * rewrite list_lookup_insert_eq in Hj by (by eapply lookup_lt_Some).
        injection Hj as <-.
        apply (allocate_wf b bytes (Some ptr, b')); [|done].
        apply Hwf. by eapply list_elem_of_lookup_2.
      * rewrite list_lookup_insert_ne in Hj by done.
        apply Hwf. by eapply list_elem_of_lookup_2.
    + by exists (index o), b, b'.
  - destruct Hinv as [-> Hall]. split_and!; try done.
    intros b [i Hi]%list_elem_of_lookup.
    destruct (Hall (MemoryPoolAllocator.score bytes i b)) as (b0 & Hb0 & Hal).
    { rewrite Hperm. by apply options_elem. }
    rewrite score_index, Hi in Hb0. by injection Hb0 as <-.
Qed.

Lemma dispatcher_allocate_outcome_witness :
  ∃ out pool',
    MemoryPoolAllocator.allocate insertion_sort two_buckets 20
    = Some (out, pool')
    ∧ length pool' = length two_buckets
    ∧ (∀ b, b ∈ pool' → wf b)
    ∧ match out with
      | bad_alloc =>
          pool' = two_buckets
          ∧ ∀ b, b ∈ two_buckets → bucket.allocate b 20 = Some (None, b)
      | Returned ptr =>
          ∃ i b b',
            two_buckets !! i = Some b
            ∧ bucket.allocate b 20 = Some (Some ptr, b')
            ∧ pool' = <[i := b']> two_buckets
      end.
Proof.
  apply (dispatcher_allocate_outcome insertion_sort two_buckets 20).
  - exact insertion_sort_spec.
  - intros b [->|[->|[]%elem_of_nil]%elem_of_cons]%elem_of_cons;
      apply make_wf; lia.
Defined.

(** X17. The bucket that serves a request has the least waste among the
    buckets able to serve it: every bucket whose score is less, by smaller
    waste or by equal waste and fewer blocks, returned none for this
    request. *)
Theorem allocate_least_waste sort pool bytes ptr pool' :
  std_sort_spec sort →
  MemoryPoolAllocator.allocate sort pool bytes = Some (Returned ptr, pool') →
  ∃ i b b',
    pool !! i = Some b
    ∧ bucket.allocate b bytes = Some (Some ptr, b')
    ∧ pool' = <[i := b']> pool
    ∧ ∀ j bj,
        pool !! j = Some bj →
        info_lt (MemoryPoolAllocator.score bytes j bj)
          (MemoryPoolAllocator.score bytes i b) = true →
        bucket.allocate bj bytes = Some (None, bj).
Proof.
  intros Hsort Htry. unfold MemoryPoolAllocator.allocate in Htry.
  destruct (Hsort (MemoryPoolAllocator.options bytes 0 pool))
    as [Hperm Hsorted].
  destruct (try_options_inv _ _ _ _ _ Htry)
    as (pre & o & post & b & b' & Hsplit & Hpre & Hb & Hal & ->).
  exists (index o), b, b'. split_and!; try done.
  intros j bj Hj Hlt.
  assert (o = MemoryPoolAllocator.score bytes (index o) b) as Ho.
  { destruct (options_elem_inv bytes pool o) as (b0 & Hb0 & ->).
    - rewrite <- Hperm, Hsplit. apply elem_of_app. right. by left.
    - rewrite score_index in *. congruence. }
  rewrite <- Ho in Hlt.
  pose proof (options_elem bytes pool j bj Hj) as Hin.
  rewrite <- Hperm, Hsplit in Hin.
  rewrite Hsplit in Hsorted.
  apply StronglySorted_app_1_r, StronglySorted_cons in Hsorted
    as [Hpost _].
  apply elem_of_app in Hin as [Hin|[Heq|Hin]%elem_of_cons].
  - destruct (Hpre _ Hin) as (b0 & Hb0 & Hal0).
    rewrite score_index in Hb0. congruence.
  - rewrite Heq in Hlt. revert Hlt. unfold info_lt.
    by rewrite Z.eqb_refl, Z.ltb_irrefl.
  - rewrite Forall_forall in Hpost. by rewrite (Hpost _ Hin) in Hlt.
Qed.

Lemma allocate_least_waste_witness :
  ∃ i b b',
    two_buckets !! i = Some b
    ∧ bucket.allocate b 20 = Some (Some 8192, b')
    ∧ [bucket.make 8 16 4096; bucket.mk 24 16 8192 [128; 0]]
      = <[i := b']> two_buckets
    ∧ ∀ j bj,
        two_buckets !! j = Some bj →
        info_lt (MemoryPoolAllocator.score 20 j bj)
          (MemoryPoolAllocator.score 20 i b) = true →
        bucket.allocate bj 20 = Some (None, bj).
Proof.
  apply (allocate_least_waste insertion_sort two_buckets 20 8192
           [bucket.make 8 16 4096; bucket.mk 24 16 8192 [128; 0]]).
  - exact insertion_sort_spec.
  - done.
Defined.

(** ** MemoryPoolAllocator::deallocate *)

(** X18. The dispatcher's [deallocate] hands the call to the first bucket,
    in pool order, whose [belongs] test accepts the address, and touches no
    other bucket, later buckets that would accept the address included. *)
Theorem dispatcher_deallocate_first_owner pre b post ptr n :
  (∀ b0, b0 ∈ pre → bucket.belongs b0 ptr = false) →
  bucket.belongs b ptr = true →
  MemoryPoolAllocator.deallocate (pre ++ b :: post) ptr n
  = b' ← bucket.deallocate b ptr n; Some (pre ++ b' :: post).
Proof.
  intros Hpre Hb. induction pre as [|b0 pre IH]; simpl.
  - by rewrite Hb.
  - rewrite Hpre by left. rewrite IH by (intros ??; apply Hpre; by right).
    by destruct (bucket.deallocate b ptr n).
Qed.

Lemma dispatcher_deallocate_first_owner_witness :
  MemoryPoolAllocator.deallocate
    ([bucket.mk 8 16 4096 [192; 0]] ++ bucket.mk 24 16 8192 [128; 0] :: [])
    8192 20
  = b' ← bucket.deallocate (bucket.mk 24 16 8192 [128; 0]) 8192 20;
    Some ([bucket.mk 8 16 4096 [192; 0]] ++ b' :: []).
Proof.
  apply dispatcher_deallocate_first_owner; [|done].
  by intros b0 ->%list_elem_of_singleton.
Defined.

(** ** bucket::allocate at the edges of first fit *)





